(** * graph-data-structure: the graph store and its algorithms

    A shallow embedding of [src/index.js]: the adjacency store with its
    weight and identifier side tables, the depth-first traversal and what
    is derived from it ([hasCycle], [getCycles], [topologicalSort]),
    [lowestCommonAncestors], [shortestPath], the serialized form and
    [walk].

    Modelling conventions.
    - A node identifier is a [string].  A JavaScript object used as a
      table is an association list in insertion order ([JsObj]) where the
      program enumerates its keys, and a [gmap] where it only reads and
      writes single entries.  Property names are taken to be ordinary
      names: neither inherited from [Object.prototype] nor array indices
      (which [Object.keys] would list first, in numeric order).
    - An edge weight is an exact integer; the rounding of JavaScript
      numbers is not modelled.  [Infinity] is a separate value ([Inf]).
    - The callback handed to [walk] works on a state of the caller's, can
      throw, and does not change the graph.
    - A call either returns, throws, or runs out of fuel ([outcome]).
      The recursive traversals and the loops take their fuel from the
      size of the graph, and are proved never to run out where a claim
      says they return. *)

From Stdlib Require Import ZArith.
From stdpp Require Import gmap strings list fin_maps.

Local Open Scope string_scope.
Local Open Scope list_scope.

Abbreviation NodeId := string (only parsing).
Abbreviation EncodedEdge := string (only parsing).
Abbreviation EdgeId := string (only parsing).
Abbreviation EdgeWeight := Z (only parsing).

(** ** JavaScript objects whose keys are enumerated *)

Module JsObj.

Definition t (V : Type) : Type := list (string * V).

Definition empty {V} : t V := [].

(** [o[k]] *)
Fixpoint get {V} (o : t V) (k : string) : option V :=
  match o with
  | [] => None
  | (k', v) :: o' => if decide (k' = k) then Some v else get o' k
  end.

(** [o[k] = v]: an existing key keeps its place, a new one goes last. *)
Fixpoint set {V} (o : t V) (k : string) (v : V) : t V :=
  match o with
  | [] => [(k, v)]
  | (k', v') :: o' =>
      if decide (k' = k) then (k, v) :: o' else (k', v') :: set o' k v
  end.

(** [delete o[k]] *)
Fixpoint delete {V} (o : t V) (k : string) : t V :=
  match o with
  | [] => []
  | (k', v') :: o' =>
      if decide (k' = k) then delete o' k else (k', v') :: delete o' k
  end.

(** [Object.keys(o)] *)
Definition keys {V} (o : t V) : list string := o.*1.

End JsObj.

(** ** Outcomes of a call *)

Inductive JsError : Type :=
| CycleError (message : string)
| Error (message : string).

Inductive outcome (A : Type) : Type :=
| Ret (a : A)
| Throw (e : JsError)
| OutOfFuel.
Arguments Ret {A} a.
Arguments Throw {A} e.
Arguments OutOfFuel {A}.

#[global] Instance outcome_bind : MBind outcome := λ A B k m,
  match m with
  | Ret a => k a
  | Throw e => Throw e
  | OutOfFuel => OutOfFuel
  end.

(** [xs.forEach(f)] for a callback that can throw, threading the state. *)
Fixpoint forEachM {A S} (f : A → S → outcome S) (xs : list A) (s : S)
  : outcome S :=
  match xs with
  | [] => Ret s
  | x :: xs' => s' ← f x s; forEachM f xs' s'
  end.

(** A table entry read as a condition: [undefined] counts as false. *)
Definition truthy (o : option bool) : bool := default false o.

(** ** The graph store *)

Record Graph : Type := mkGraph {
  edges : JsObj.t (list NodeId);
  edgeWeights : gmap EncodedEdge EdgeWeight;
  edgeIds : gmap EncodedEdge EdgeId
}.

(** [Graph()] *)
Definition emptyGraph : Graph := mkGraph JsObj.empty ∅ ∅.

Definition adjacent (g : Graph) (node : NodeId) : list NodeId :=
  default [] (JsObj.get (edges g) node).

Definition addNode (g : Graph) (node : NodeId) : Graph :=
  mkGraph (JsObj.set (edges g) node (adjacent g node))
          (edgeWeights g) (edgeIds g).

Definition encodeEdge (u v : NodeId) : EncodedEdge := u +:+ "|" +:+ v.

Definition setEdgeWeight (g : Graph) (u v : NodeId) (weight : EdgeWeight)
  : Graph :=
  mkGraph (edges g) (<[encodeEdge u v := weight]> (edgeWeights g)) (edgeIds g).

Definition getEdgeWeight (g : Graph) (u v : NodeId) : EdgeWeight :=
  match edgeWeights g !! encodeEdge u v with
  | None => 1%Z
  | Some weight => weight
  end.

Definition setEdgeId (g : Graph) (u v : NodeId) (edgeId : EdgeId) : Graph :=
  mkGraph (edges g) (edgeWeights g) (<[encodeEdge u v := edgeId]> (edgeIds g)).

(** [None] is JavaScript's [undefined]. *)
Definition getEdgeId (g : Graph) (u v : NodeId) : option EdgeId :=
  edgeIds g !! encodeEdge u v.

(** [adjacent(u).push(v)] appends to the array stored under [u]. *)
Definition addEdge (g : Graph) (u v : NodeId)
    (weight : option EdgeWeight) (edgeId : option EdgeId) : Graph :=
  let g1 := addNode g u in
  let g2 := addNode g1 v in
  let g3 := mkGraph (JsObj.set (edges g2) u (adjacent g2 u ++ [v]))
                    (edgeWeights g2) (edgeIds g2) in
  let g4 := match weight with
            | Some w => setEdgeWeight g3 u v w
            | None => g3
            end in
  match edgeId with
  | Some i => setEdgeId g4 u v i
  | None => g4
  end.

Definition removeEdge (g : Graph) (u v : NodeId) : Graph :=
  match JsObj.get (edges g) u with
  | Some _ =>
      mkGraph (JsObj.set (edges g) u (filter (λ _v, _v ≠ v) (adjacent g u)))
              (edgeWeights g)
              (delete (encodeEdge u v) (edgeIds g))
  | None => g
  end.

(** The outer loop runs over the keys as they were at the start; the inner
    one over the array [edges[u]] as it was when the outer loop reached [u]
    ([removeEdge] stores a new array and leaves that one alone).  For a key
    [u], [edges[u]] is [adjacent u]. *)
Definition removeNode (g : Graph) (node : NodeId) : Graph :=
  let g1 :=
    foldl (λ g u,
             foldl (λ g v, if decide (v = node) then removeEdge g u v else g)
                   g (adjacent g u))
          g (JsObj.keys (edges g)) in
  mkGraph (JsObj.delete (edges g1) node) (edgeWeights g1) (edgeIds g1).

Definition nodes (g : Graph) : list NodeId :=
  let nodeSet : JsObj.t bool :=
    foldl (λ nodeSet u,
             foldl (λ nodeSet v, JsObj.set nodeSet v true)
                   (JsObj.set nodeSet u true) (adjacent g u))
          JsObj.empty (JsObj.keys (edges g)) in
  JsObj.keys nodeSet.

Definition getEdges (g : Graph) : JsObj.t (list NodeId) := edges g.

Definition hasEdge (g : Graph) (u v : NodeId) : bool :=
  bool_decide (v ∈ adjacent g u).

Definition indegree (g : Graph) (node : NodeId) : nat :=
  foldl (λ degree u,
           foldl (λ degree v, if decide (v = node) then S degree else degree)
                 degree (adjacent g u))
        0 (JsObj.keys (edges g)).


(** ** Depth-first traversal *)

Record DfsOptions : Type := mkOptions {
  includeSourceNodes : option bool;
  errorOnCycle : option bool;
  collectCycles : option bool
}.

(** The closure variables of [depthFirstSearchBase]. *)
Record DfsState : Type := mkDfs {
  visited : gmap NodeId bool;
  visiting : gmap NodeId bool;
  nodeList : list NodeId;
  cycles : JsObj.t NodeId
}.

(** The property name a value stands for; [undefined] reads "undefined". *)
Definition propertyKey (from : option NodeId) : string :=
  default "undefined" from.

Fixpoint DFSVisit (fuel : nat) (g : Graph) (options : DfsOptions)
    (node : NodeId) (from : option NodeId) (st : DfsState)
  : outcome DfsState :=
  match fuel with
  | O => OutOfFuel
  | S fuel =>
      if truthy (visiting st !! node) && truthy (errorOnCycle options) then
        Throw (CycleError "Cycle found")
      else if truthy (visiting st !! node) && truthy (collectCycles options)
      then
        Ret (mkDfs (visited st) (visiting st) (nodeList st)
                   (JsObj.set (cycles st) (propertyKey from) node))
      else if negb (truthy (visited st !! node)) then
        let st1 := mkDfs (<[node := true]> (visited st))
                         (<[node := true]> (visiting st))
                         (nodeList st) (cycles st) in
        st2 ← forEachM (λ adjacent, DFSVisit fuel g options adjacent (Some node))
                       (adjacent g node) st1;
        Ret (mkDfs (visited st2) (<[node := false]> (visiting st2))
                   (nodeList st2 ++ [node]) (cycles st2))
      else Ret st
  end.

Inductive DfsType : Type := normal | cyclesType.

Definition DfsReturn (type : DfsType) : Type :=
  match type with
  | normal => list NodeId
  | cyclesType => JsObj.t NodeId
  end.

(** A visit marks at least one more key of [edges] before it recurses, so
    one unit of fuel per key and one for the call itself are enough. *)
Definition dfsFuel (g : Graph) : nat := S (length (JsObj.keys (edges g))).

Definition depthFirstSearchBase (g : Graph) (type : DfsType)
    (sourceNodes : option (list NodeId)) (options : DfsOptions)
  : outcome (DfsReturn type) :=
  let sourceNodes := match sourceNodes with
                     | Some l => l
                     | None => nodes g
                     end in
  let options := mkOptions (Some (default true (includeSourceNodes options)))
                           (errorOnCycle options) (collectCycles options) in
  let st0 := mkDfs ∅ ∅ [] JsObj.empty in
  st ← (if truthy (includeSourceNodes options) then
          forEachM (λ source, DFSVisit (dfsFuel g) g options source None)
                   sourceNodes st0
        else
          let st1 :=
            foldl (λ st node, mkDfs (<[node := true]> (visited st))
                                    (visiting st) (nodeList st) (cycles st))
                  st0 sourceNodes in
          forEachM (λ node,
                      forEachM (λ adjacent,
                                  DFSVisit (dfsFuel g) g options adjacent
                                           (Some node))
                               (adjacent g node))
                   sourceNodes st1);
  Ret (match type return DfsReturn type with
       | normal => nodeList st
       | cyclesType => cycles st
       end).



Definition getCycles (g : Graph) (sourceNodes : option (list NodeId))
  : outcome (list (NodeId * NodeId)) :=
  cycles ← depthFirstSearchBase g cyclesType sourceNodes
             (mkOptions (Some (bool_decide (is_Some sourceNodes)))
                        (Some false) (Some true));
  Ret (foldl (λ cycleList source,
                match JsObj.get cycles source with
                | Some target =>
                    if String.ltb source target
                    then cycleList ++ [(source, target)]
                    else cycleList ++ [(target, source)]
                | None => cycleList
                end)
             [] (JsObj.keys cycles)).

Definition topologicalSort (g : Graph) (sourceNodes : option (list NodeId))
    (includeSourceNodes : option bool) : outcome (list NodeId) :=
  let includeSourceNodes := default true includeSourceNodes in
  nodeList ← depthFirstSearchBase g normal sourceNodes
               (mkOptions (Some includeSourceNodes) (Some true) None);
  Ret (reverse nodeList).

(** ** Lowest common ancestors *)

(** [visited] is the object handed to the visit; the two lists belong to
    [lowestCommonAncestors]. *)
Record LcaState : Type := mkLca {
  lcaVisited : gmap NodeId bool;
  node1Ancestors : list NodeId;
  lcas : list NodeId
}.

(** [xs.every(f)]: stops at the first [false]. *)
Fixpoint everyM {A S} (f : A → S → outcome (bool * S)) (xs : list A) (s : S)
  : outcome (bool * S) :=
  match xs with
  | [] => Ret (true, s)
  | x :: xs' =>
      '(ok, s') ← f x s;
      if ok : bool then everyM f xs' s' else Ret (false, s')
  end.

Fixpoint CA1Visit (fuel : nat) (g : Graph) (node2 : NodeId)
    (node : NodeId) (st : LcaState) : outcome (bool * LcaState) :=
  match fuel with
  | O => OutOfFuel
  | S fuel =>
      if negb (truthy (lcaVisited st !! node)) then
        let st1 := mkLca (<[node := true]> (lcaVisited st))
                         (node1Ancestors st ++ [node]) (lcas st) in
        if decide (node = node2) then
          Ret (false, mkLca (lcaVisited st1) (node1Ancestors st1)
                            (lcas st1 ++ [node]))
        else everyM (CA1Visit fuel g node2) (adjacent g node) st1
      else Ret (true, st)
  end.

Fixpoint CA2Visit (fuel : nat) (g : Graph) (node : NodeId) (st : LcaState)
  : outcome LcaState :=
  match fuel with
  | O => OutOfFuel
  | S fuel =>
      if negb (truthy (lcaVisited st !! node)) then
        let st1 := mkLca (<[node := true]> (lcaVisited st))
                         (node1Ancestors st) (lcas st) in
        if bool_decide (node ∈ node1Ancestors st1) then
          Ret (mkLca (lcaVisited st1) (node1Ancestors st1) (lcas st1 ++ [node]))
        else if bool_decide (length (lcas st1) = 0) then
          forEachM (CA2Visit fuel g) (adjacent g node) st1
        else Ret st1
      else Ret st
  end.

Definition lowestCommonAncestors (g : Graph) (node1 node2 : NodeId)
  : outcome (list NodeId) :=
  '(ok, st1) ← CA1Visit (dfsFuel g) g node2 node1 (mkLca ∅ [] []);
  if ok : bool then
    st2 ← CA2Visit (dfsFuel g) g node2
            (mkLca ∅ (node1Ancestors st1) (lcas st1));
    Ret (lcas st2)
  else Ret (lcas st1).

(** ** Shortest path *)

(** The values held in [d]: a finite number or [Infinity]. *)
Inductive Dist : Type := Fin (z : Z) | Inf.

#[global] Instance Dist_eq_dec : EqDecision Dist.
Proof. solve_decision. Defined.

(** [a < b] *)
Definition dist_ltb (a b : Dist) : bool :=
  match a, b with
  | Fin x, Fin y => (x <? y)%Z
  | Fin _, Inf => true
  | Inf, _ => false
  end.

(** [a + w] for a finite weight [w] *)
Definition dist_add (a : Dist) (w : Z) : Dist :=
  match a with
  | Fin x => Fin (x + w)
  | Inf => Inf
  end.

(** The closure variables of [shortestPath]. *)
Record SpState : Type := mkSp {
  d : gmap NodeId Dist;
  p : gmap NodeId NodeId;
  q : JsObj.t bool
}.

Definition initializeSingleSource (g : Graph) (source destination : NodeId)
    (st : SpState) : outcome SpState :=
  let d1 := foldl (λ d node, <[node := Inf]> d) (d st) (nodes g) in
  if bool_decide (d1 !! source ≠ Some Inf) then
    Throw (Error "Source node is not in the graph")
  else if bool_decide (d1 !! destination ≠ Some Inf) then
    Throw (Error "Destination node is not in the graph")
  else Ret (mkSp (<[source := Fin 0]> d1) (p st) (q st)).

Definition initializePriorityQueue (g : Graph) (st : SpState) : SpState :=
  mkSp (d st) (p st)
       (foldl (λ q node, JsObj.set q node true) (q st) (nodes g)).

Definition priorityQueueEmpty (st : SpState) : bool :=
  bool_decide (length (JsObj.keys (q st)) = 0).

(** A key whose [d] entry is missing compares as [undefined < min], which
    is false.  [None] is the [null] the source returns. *)
Definition extractMin (st : SpState) : option NodeId * SpState :=
  let scan :=
    foldl (λ acc node,
             match d st !! node with
             | Some dn => if dist_ltb dn acc.1 then (dn, Some node) else acc
             | None => acc
             end)
          (Inf, None) (JsObj.keys (q st)) in
  match scan.2 with
  | None => (None, mkSp (d st) (p st) JsObj.empty)
  | Some minNode => (Some minNode, mkSp (d st) (p st) (JsObj.delete (q st) minNode))
  end.

(** [d[v] > d[u] + w]; with a missing entry on either side the comparison
    is false. *)
Definition relax (g : Graph) (u v : NodeId) (st : SpState) : SpState :=
  let w := getEdgeWeight g u v in
  match d st !! v, d st !! u with
  | Some dv, Some du =>
      if dist_ltb (dist_add du w) dv then
        mkSp (<[v := dist_add du w]> (d st)) (<[v := u]> (p st)) (q st)
      else st
  | _, _ => st
  end.

(** The [while] loop of [dijkstra]; every round takes a key out of [q]. *)
Fixpoint dijkstraLoop (fuel : nat) (g : Graph) (st : SpState)
  : outcome SpState :=
  match fuel with
  | O => OutOfFuel
  | S fuel =>
      if priorityQueueEmpty st then Ret st
      else
        match extractMin st with
        | (None, st') => Ret st'
        | (Some u, st') =>
            dijkstraLoop fuel g
              (foldl (λ st v, relax g u v st) st' (adjacent g u))
        end
  end.

Definition dijkstra (g : Graph) (source destination : NodeId) (st : SpState)
  : outcome SpState :=
  st1 ← initializeSingleSource g source destination st;
  dijkstraLoop (S (length (nodes g))) g (initializePriorityQueue g st1).

Record PathResult : Type := mkPath {
  pathNodes : list NodeId;
  weight : Z
}.

(** The [while (p[node])] loop of [path]: it goes on while the predecessor
    is a non-empty string, and hands back [node], [nodeList] and [weight]. *)
Fixpoint pathLoop (fuel : nat) (g : Graph) (p : gmap NodeId NodeId)
    (node : NodeId) (nodeList : list NodeId) (weight : Z)
  : outcome (NodeId * list NodeId * Z) :=
  match fuel with
  | O => OutOfFuel
  | S fuel =>
      match p !! node with
      | Some pn =>
          if bool_decide (pn ≠ "") then
            pathLoop fuel g p pn (nodeList ++ [node])
                     (weight + getEdgeWeight g pn node)
          else Ret (node, nodeList, weight)
      | None => Ret (node, nodeList, weight)
      end
  end.

Definition path (g : Graph) (source destination : NodeId) (st : SpState)
  : outcome PathResult :=
  '(node, nodeList, weight) ←
     pathLoop (S (length (nodes g))) g (p st) destination [] 0;
  if bool_decide (node ≠ source) then Throw (Error "No path found")
  else Ret (mkPath (reverse (nodeList ++ [node])) weight).

Definition shortestPath (g : Graph) (source destination : NodeId)
  : outcome PathResult :=
  st ← dijkstra g source destination (mkSp ∅ ∅ JsObj.empty);
  path g source destination st.

(** ** Serialization *)

Module SNode.
Record t : Type := mk { id : NodeId }.
End SNode.

Module Link.
Record t : Type := mk {
  source : NodeId;
  target : NodeId;
  weight : EdgeWeight;
  id : option EdgeId
}.
End Link.

Module Serialized.
Record t : Type := mk {
  nodes : list SNode.t;
  links : list Link.t
}.
End Serialized.

Definition serialize (g : Graph) : Serialized.t :=
  let serializedNodes := (λ id, SNode.mk id) <$> nodes g in
  let serializedLinks :=
    foldl (λ links node,
             let source := SNode.id node in
             foldl (λ links target,
                      links ++ [Link.mk source target
                                        (getEdgeWeight g source target)
                                        (getEdgeId g source target)])
                   links (adjacent g source))
          [] serializedNodes in
  Serialized.mk serializedNodes serializedLinks.

(** The call is [addEdge(link.source, link.target, link.weight)]: no fourth
    argument. *)
Definition deserialize (g : Graph) (serialized : Serialized.t) : Graph :=
  let g1 := foldl (λ g node, addNode g (SNode.id node))
                  g (Serialized.nodes serialized) in
  foldl (λ g link,
           addEdge g (Link.source link) (Link.target link)
                   (Some (Link.weight link)) None)
        g1 (Serialized.links serialized).

(** [Graph(serialized)] *)
Definition newGraph (serialized : option Serialized.t) : Graph :=
  match serialized with
  | Some s => deserialize emptyGraph s
  | None => emptyGraph
  end.

(** ** Walk *)

(** [followNode] of [walk].  [onElement] is the caller's callback: it works
    on a state of the caller's, can throw, and leaves the graph alone.
    [st] pairs the [visited] table with the caller's state. *)
Fixpoint followNode {T} (fuel : nat) (g : Graph)
    (onElement : NodeId → T → outcome T) (following : NodeId)
    (st : gmap NodeId bool * T) : outcome (gmap NodeId bool * T) :=
  match fuel with
  | O => OutOfFuel
  | S fuel =>
      if truthy (st.1 !! following) then Ret st
      else
        let visited := <[following := true]> st.1 in
        s ← onElement following st.2;
        let nextNodes := adjacent g following in
        if bool_decide (length nextNodes = 0) then Ret (visited, s)
        else forEachM (followNode fuel g onElement) nextNodes (visited, s)
  end.

Definition walk {T} (g : Graph) (onElement : NodeId → T → outcome T) (s : T)
  : outcome T :=
  st ← forEachM (followNode (dfsFuel g) g onElement) (nodes g) (∅, s);
  Ret st.2.

(** ** Vocabulary of the statements *)

(** [u → v]: [v] occurs in the adjacency list of [u]. *)
Definition edge (g : Graph) (u v : NodeId) : Prop := v ∈ adjacent g u.

(** A path of zero or more edges. *)
Definition reaches (g : Graph) : relation NodeId := rtc (edge g).



(** The invariant of the store: no key twice, and every node named in an
    adjacency list has an adjacency entry of its own. *)
Definition wf (g : Graph) : Prop :=
  NoDup (JsObj.keys (edges g)) ∧
  ∀ u v, v ∈ adjacent g u → v ∈ JsObj.keys (edges g).

(** The graphs a caller can build through the interface. *)
Inductive built : Graph → Prop :=
| built_empty : built emptyGraph
| built_addNode g node : built g → built (addNode g node)
| built_removeNode g node : built g → built (removeNode g node)
| built_addEdge g u v weight edgeId :
    built g → built (addEdge g u v weight edgeId)
| built_removeEdge g u v : built g → built (removeEdge g u v)
| built_setEdgeWeight g u v weight :
    built g → built (setEdgeWeight g u v weight)
| built_setEdgeId g u v edgeId : built g → built (setEdgeId g u v edgeId)
| built_deserialize g serialized :
    built g → built (deserialize g serialized).

(** A node sequence in which each node has an edge to the next. *)
Fixpoint isPath (g : Graph) (l : list NodeId) : Prop :=
  match l with
  | u :: (v :: _) as l' => edge g u v ∧ isPath g l'
  | _ => True
  end.

(** The sum of the edge weights along a node sequence. *)
Fixpoint pathWeight (g : Graph) (l : list NodeId) : Z :=
  match l with
  | u :: (v :: _) as l' => (getEdgeWeight g u v + pathWeight g l')%Z
  | _ => 0%Z
  end.

Definition pathFromTo (g : Graph) (source destination : NodeId)
    (l : list NodeId) : Prop :=
  head l = Some source ∧ last l = Some destination ∧ isPath g l.

Definition nonnegativeWeights (g : Graph) : Prop :=
  ∀ u v, edge g u v → (0 ≤ getEdgeWeight g u v)%Z.

(** No adjacency list names a node twice. *)
Definition noDuplicateEdges (g : Graph) : Prop :=
  ∀ u, NoDup (adjacent g u).

(** Every edge has an entry in the weight table and in the identifier
    table. *)
Definition allEdgesLabelled (g : Graph) : Prop :=
  ∀ u v, hasEdge g u v = true →
         is_Some (edgeWeights g !! encodeEdge u v) ∧
         is_Some (edgeIds g !! encodeEdge u v).

(** The link [serialize] writes for the edge (u, v). *)
Definition linkOf (g : Graph) (u v : NodeId) : Link.t :=
  Link.mk u v (getEdgeWeight g u v) (getEdgeId g u v).

(** A link without its identifier. *)
Definition linkCore (link : Link.t) : NodeId * NodeId * EdgeWeight :=
  (Link.source link, Link.target link, Link.weight link).

(** What [serialize] gives after the graph went through [deserialize]. *)
Definition roundTrip (g : Graph) : Graph :=
  deserialize emptyGraph (serialize g).

(** The name holds the separator that [encodeEdge] puts between the two
    names. *)
Fixpoint hasBar (s : string) : bool :=
  match s with
  | EmptyString => false
  | String c s' => bool_decide (String c EmptyString = "|") || hasBar s'
  end.


(** ** Invariants of the traversal *)

Definition isVisited (st : DfsState) (node : NodeId) : Prop :=
  truthy (visited st !! node) = true.


(** The keys of [edges] not visited yet. *)
Definition unvisited (g : Graph) (st : DfsState) : list NodeId :=
  filter (λ k, truthy (visited st !! k) = false) (JsObj.keys (edges g)).

Definition visitedGrows (st st' : DfsState) : Prop :=
  ∀ n, isVisited st n → isVisited st' n.








(** The keys of [edges] that the table [m] does not mark. *)
Definition unmarked (g : Graph) (m : gmap NodeId bool) : list NodeId :=
  filter (λ k, truthy (m !! k) = false) (JsObj.keys (edges g)).

Definition marksGrow (m m' : gmap NodeId bool) : Prop :=
  ∀ n, truthy (m !! n) = true → truthy (m' !! n) = true.

(** ** Invariants of the walk *)

(** Started with the table [m], the run [run] calls the callback on the
    nodes [l], in this order and whatever the callback is, and leaves the
    table [m']; [l] lists the nodes marked on the way, each once. *)
Definition follows
    (run : ∀ T, (NodeId → T → outcome T) → gmap NodeId bool * T →
                outcome (gmap NodeId bool * T))
    (m m' : gmap NodeId bool) (l : list NodeId) : Prop :=
  (∀ T (onElement : NodeId → T → outcome T) (s : T),
     run T onElement (m, s) = s' ← forEachM onElement l s; Ret (m', s')) ∧
  marksGrow m m' ∧ NoDup l ∧
  ∀ n, n ∈ l ↔ truthy (m' !! n) = true ∧ truthy (m !! n) = false.

(** ** Invariants of the shortest-path search *)

(** What the linear scan has found after the keys [pre]. *)
Definition scanned (d : gmap NodeId Dist) (pre : list NodeId)
    (acc : Dist * option NodeId) : Prop :=
  match acc.2 with
  | None =>
      acc.1 = Inf ∧ ∀ k, k ∈ pre → d !! k = None ∨ d !! k = Some Inf
  | Some u =>
      u ∈ pre ∧ d !! u = Some acc.1 ∧ acc.1 ≠ Inf ∧
      ∀ k dk, k ∈ pre → d !! k = Some dk → dist_ltb dk acc.1 = false
  end.

(** The state [dijkstra] starts its loop in, when both endpoints are
    nodes of the graph. *)
Definition dijkstraStart (g : Graph) (source : NodeId) : SpState :=
  initializePriorityQueue g
    (mkSp (<[source := Fin 0]>
             (foldl (λ d node, <[node := Inf]> d) ∅ (nodes g)))
          ∅ JsObj.empty).

(** Finite [d] entries and predecessor entries only at nodes reachable
    from the source. *)
Definition reachInv (g : Graph) (source : NodeId) (st : SpState) : Prop :=
  (∀ v z, d st !! v = Some (Fin z) → reaches g source v) ∧
  (∀ v u, p st !! v = Some u → reaches g source v).

(** The invariant of the loop of [dijkstra].  [order] lists the nodes
    taken out of the queue so far, oldest first; [relaxed u v] says that
    the edge (u, v) has been relaxed. *)
Record dijkstraInv (g : Graph) (source : NodeId) (order : list NodeId)
    (relaxed : NodeId → NodeId → Prop) (st : SpState) : Prop := {
  inv_source : d st !! source = Some (Fin 0);
  inv_nonneg : ∀ v z, d st !! v = Some (Fin z) → (0 ≤ z)%Z;
  inv_total : ∀ v, v ∈ nodes g → is_Some (d st !! v);
  inv_dom : ∀ v dv, d st !! v = Some dv → v ∈ nodes g;
  inv_NoDup : NoDup order;
  inv_finite : ∀ u, u ∈ order → ∃ du, d st !! u = Some (Fin du);
  inv_all : ∀ v, v ∈ nodes g → v ∈ order ∨ v ∈ JsObj.keys (q st);
  inv_disjoint : ∀ u, u ∈ order → u ∉ JsObj.keys (q st);
  inv_relaxed :
    ∀ u du v, relaxed u v → d st !! u = Some (Fin du) → v ∈ adjacent g u →
              ∃ dv, d st !! v = Some (Fin dv) ∧
                    (dv ≤ du + getEdgeWeight g u v)%Z;
  inv_min :
    ∀ u du x dx, u ∈ order → d st !! u = Some (Fin du) →
                 x ∉ order → d st !! x = Some (Fin dx) → (du ≤ dx)%Z;
  inv_monotone :
    ∀ i j u1 u2 d1 d2,
      order !! i = Some u1 → order !! j = Some u2 → (i ≤ j)%nat →
      d st !! u1 = Some (Fin d1) → d st !! u2 = Some (Fin d2) → (d1 ≤ d2)%Z;
  inv_pred :
    ∀ v u, p st !! v = Some u →
           v ≠ source ∧ edge g u v ∧
           (∃ du, d st !! u = Some (Fin du) ∧
                  d st !! v = Some (Fin (du + getEdgeWeight g u v))) ∧
           ∃ i, order !! i = Some u ∧
                ∀ j, order !! j = Some v → (i < j)%nat;
  inv_has_pred :
    ∀ v z, d st !! v = Some (Fin z) → v ≠ source → is_Some (p st !! v)
}.

(** What the loop of [dijkstra] leaves behind. *)
Record dijkstraFinal (g : Graph) (source : NodeId) (order : list NodeId)
    (st : SpState) : Prop := {
  fin_source : d st !! source = Some (Fin 0);
  fin_NoDup : NoDup order;
  fin_nodes : ∀ u, u ∈ order → u ∈ nodes g;
  fin_settled : ∀ v z, d st !! v = Some (Fin z) → v ∈ order;
  fin_relaxed :
    ∀ u du v, d st !! u = Some (Fin du) → v ∈ adjacent g u →
              ∃ dv, d st !! v = Some (Fin dv) ∧
                    (dv ≤ du + getEdgeWeight g u v)%Z;
  fin_pred :
    ∀ v u, p st !! v = Some u →
           v ≠ source ∧ edge g u v ∧
           (∃ du, d st !! u = Some (Fin du) ∧
                  d st !! v = Some (Fin (du + getEdgeWeight g u v))) ∧
           ∃ i, order !! i = Some u ∧
                ∀ j, order !! j = Some v → (i < j)%nat;
  fin_has_pred :
    ∀ v z, d st !! v = Some (Fin z) → v ≠ source → is_Some (p st !! v)
}.

Definition dijkstraDone (g : Graph) (source : NodeId) (st : SpState) : Prop :=
  ∃ order, dijkstraFinal g source order st.

(** ** Example graphs *)

(** The getting-dressed graph of the test suite. *)
Definition dressing : Graph :=
  foldl (λ g e, addEdge g e.1 e.2 None None) emptyGraph
        [("socks", "shoes"); ("shirt", "belt"); ("shirt", "tie");
         ("tie", "jacket"); ("belt", "jacket"); ("pants", "shoes");
         ("underpants", "pants"); ("pants", "belt")].

(** The weighted graph of the shortest-path test. *)
Definition cormen : Graph :=
  foldl (λ g e, addEdge g e.1.1 e.1.2 (Some e.2) None) emptyGraph
        [("s", "t", 10%Z); ("s", "y", 5%Z); ("t", "y", 2%Z);
         ("y", "t", 3%Z); ("t", "x", 1%Z); ("y", "x", 9%Z);
         ("y", "z", 2%Z); ("x", "z", 4%Z); ("z", "x", 6%Z)].


(** An edge and a node apart from it. *)
Definition apartGraph : Graph :=
  addNode (addEdge emptyGraph "a" "b" None None) "f".

(** Two nodes added first, then two edges with weights and identifiers:
    the key order is a, b, c, d and [nodes()] is a, c, b, d. *)
Definition reorderGraph : Graph :=
  addEdge (addEdge (addNode (addNode emptyGraph "a") "b")
                   "a" "c" (Some 2%Z) (Some "e1"))
          "c" "d" (Some 3%Z) (Some "e2").

(** One edge out of the node named by the empty string. *)
Definition emptyNameGraph : Graph := addEdge emptyGraph "" "a" None None.

(** * Properties *)

(** A closed decidable statement is settled by evaluating its decision
    procedure. *)
Ltac by_evaluation := apply (bool_decide_unpack _); vm_compute; exact I.

(** ** Key-ordered objects *)

Module JsObjFacts.
Import JsObj.

Section facts.
Context {V : Type}.
Implicit Types (o : JsObj.t V) (k : string) (v : V).

Lemma get_set_eq o k v : get (set o k v) k = Some v.
Proof.
  induction o as [|[k' v'] o IH]; simpl.
  - by rewrite decide_True.
  - destruct (decide (k' = k)) as [-> |Hne]; simpl.
    + by rewrite decide_True.
    + by rewrite decide_False.
Qed.

Lemma get_set_ne o k k' v : k ≠ k' → get (set o k v) k' = get o k'.
Proof.
  intros Hne. induction o as [|[k0 v0] o IH]; simpl.
  - by rewrite decide_False.
  - repeat (case_decide; simplify_eq/=); done.
Qed.

Lemma get_set o k k' v :
  get (set o k v) k' = if decide (k = k') then Some v else get o k'.
Proof.
  destruct (decide (k = k')) as [-> |?];
    [apply get_set_eq | by apply get_set_ne].
Qed.

Lemma elem_of_keys o k : k ∈ keys o ↔ is_Some (get o k).
Proof.
  unfold keys. induction o as [|[k' v'] o IH]; simpl.
  - rewrite elem_of_nil. split; [done | by intros [? ?]].
  - rewrite elem_of_cons, IH.
    destruct (decide (k' = k)) as [-> |?]; [by split; eauto |].
    split; [by intros [?|?] | by right].
Qed.

Lemma not_elem_of_keys o k : k ∉ keys o ↔ get o k = None.
Proof. by rewrite elem_of_keys, eq_None_not_Some. Qed.

Lemma keys_set o k v :
  keys (set o k v) = if decide (k ∈ keys o) then keys o else keys o ++ [k].
Proof.
  unfold keys. induction o as [|[k' v'] o IH].
  - destruct (decide (k ∈ [].*1)) as [Hin|Hin]; [|done].
    by apply elem_of_nil in Hin.
  - cbn [set]. destruct (decide (k' = k)) as [-> |Hne].
    + destruct (decide (k ∈ ((k, v') :: o).*1)) as [Hin|Hin]; [done |].
      exfalso. apply Hin. rewrite fmap_cons. left.
    + rewrite fmap_cons, IH.
      destruct (decide (k ∈ o.*1)) as [Hin|Hin];
        destruct (decide (k ∈ ((k', v') :: o).*1)) as [Hin'|Hin'];
        rewrite fmap_cons in Hin'; try done.
      * exfalso. apply Hin'. by right.
      * apply elem_of_cons in Hin' as [?|?]; done.
Qed.

Lemma elem_of_keys_set o k v x : x ∈ keys (set o k v) ↔ x = k ∨ x ∈ keys o.
Proof.
  rewrite keys_set. destruct (decide (k ∈ keys o)).
  - split; [by right | by intros [-> |?]].
  - rewrite elem_of_app, list_elem_of_singleton. tauto.
Qed.

Lemma NoDup_keys_set o k v : NoDup (keys o) → NoDup (keys (set o k v)).
Proof.
  intros Hnd. rewrite keys_set. destruct (decide (k ∈ keys o)); [done |].
  apply NoDup_app. split_and!; [done | | apply NoDup_singleton].
  intros x Hx ->%list_elem_of_singleton. done.
Qed.

Lemma keys_delete o k : keys (delete o k) = filter (λ x, x ≠ k) (keys o).
Proof.
  unfold keys. induction o as [|[k' v'] o IH]; [done |].
  cbn [delete]. rewrite fmap_cons. cbn [fst].
  destruct (decide (k' = k)) as [-> |Hne].
  - rewrite filter_cons_False; [done | tauto].
  - rewrite filter_cons_True by done. by rewrite fmap_cons, IH.
Qed.

Lemma get_delete_eq o k : get (delete o k) k = None.
Proof.
  induction o as [|[k' v'] o IH]; simpl; [done |].
  destruct (decide (k' = k)); simpl; [done | by rewrite decide_False].
Qed.

Lemma get_delete_ne o k k' : k ≠ k' → get (delete o k) k' = get o k'.
Proof.
  intros Hne. induction o as [|[k0 v0] o IH]; simpl; [done |].
  destruct (decide (k0 = k)) as [-> |?]; simpl.
  - by rewrite decide_False.
  - by rewrite IH.
Qed.

Lemma NoDup_keys_delete o k : NoDup (keys o) → NoDup (keys (delete o k)).
Proof. rewrite keys_delete. apply NoDup_filter. Qed.

End facts.
End JsObjFacts.

(** ** The graph store *)

Section store.
Import JsObj JsObjFacts.
Implicit Types (g : Graph) (u v x node : NodeId).

Lemma adjacent_not_key g u : u ∉ keys (edges g) → adjacent g u = [].
Proof. unfold adjacent. by intros ->%not_elem_of_keys. Qed.

Lemma adjacent_key g u v : v ∈ adjacent g u → u ∈ keys (edges g).
Proof.
  intros Hv. destruct (decide (u ∈ keys (edges g))) as [|Hu]; [done |].
  rewrite (adjacent_not_key _ _ Hu) in Hv. by apply elem_of_nil in Hv.
Qed.

Lemma adjacent_set g u x a :
  default [] (get (set (edges g) u a) x)
  = if decide (u = x) then a else adjacent g x.
Proof. rewrite get_set. by destruct (decide (u = x)). Qed.

Lemma adjacent_addNode g node u : adjacent (addNode g node) u = adjacent g u.
Proof.
  unfold adjacent at 1, addNode. cbn [edges]. rewrite adjacent_set.
  by destruct (decide (node = u)) as [->|].
Qed.

Lemma elem_of_keys_addNode g node x :
  x ∈ keys (edges (addNode g node)) ↔ x = node ∨ x ∈ keys (edges g).
Proof. apply elem_of_keys_set. Qed.

Lemma edges_addEdge g u v weight edgeId :
  edges (addEdge g u v weight edgeId)
  = set (edges (addNode (addNode g u) v)) u (adjacent g u ++ [v]).
Proof.
  unfold addEdge. rewrite !adjacent_addNode.
  by destruct weight, edgeId.
Qed.

Lemma adjacent_addEdge g u v weight edgeId x :
  adjacent (addEdge g u v weight edgeId) x
  = if decide (u = x) then adjacent g u ++ [v] else adjacent g x.
Proof.
  unfold adjacent at 1. rewrite edges_addEdge.
  rewrite (adjacent_set (addNode (addNode g u) v)), !adjacent_addNode.
  done.
Qed.

Lemma elem_of_keys_addEdge g u v weight edgeId x :
  x ∈ keys (edges (addEdge g u v weight edgeId))
  ↔ x = u ∨ x = v ∨ x ∈ keys (edges g).
Proof.
  rewrite edges_addEdge, elem_of_keys_set, !elem_of_keys_addNode. tauto.
Qed.

Lemma edgeWeights_addEdge g u v weight edgeId :
  edgeWeights (addEdge g u v weight edgeId)
  = match weight with
    | Some w => <[encodeEdge u v := w]> (edgeWeights g)
    | None => edgeWeights g
    end.
Proof. unfold addEdge. by destruct weight, edgeId. Qed.

Lemma edgeIds_addEdge g u v weight edgeId :
  edgeIds (addEdge g u v weight edgeId)
  = match edgeId with
    | Some i => <[encodeEdge u v := i]> (edgeIds g)
    | None => edgeIds g
    end.
Proof. unfold addEdge. by destruct weight, edgeId. Qed.

Lemma filter_ne_id (l : list NodeId) x : x ∉ l → filter (λ _v, _v ≠ x) l = l.
Proof.
  induction l as [|y l IH]; [done |]. intros Hx.
  apply not_elem_of_cons in Hx as [? ?].
  rewrite filter_cons_True by done. by rewrite IH.
Qed.

Lemma filter_ne_idemp (l : list NodeId) x :
  filter (λ _v, _v ≠ x) (filter (λ _v, _v ≠ x) l) = filter (λ _v, _v ≠ x) l.
Proof. apply filter_ne_id. rewrite list_elem_of_filter. tauto. Qed.

Lemma adjacent_removeEdge g u v x :
  adjacent (removeEdge g u v) x
  = if decide (u = x) then filter (λ _v, _v ≠ v) (adjacent g x)
    else adjacent g x.
Proof.
  unfold removeEdge. destruct (get (edges g) u) as [a|] eqn:Hu.
  - unfold adjacent at 1. cbn [edges]. rewrite adjacent_set.
    by destruct (decide (u = x)) as [->|].
  - destruct (decide (u = x)) as [<-|]; [|done].
    unfold adjacent. by rewrite Hu.
Qed.

Lemma keys_removeEdge g u v :
  keys (edges (removeEdge g u v)) = keys (edges g).
Proof.
  unfold removeEdge. destruct (get (edges g) u) as [a|] eqn:Hu; [|done].
  cbn [edges]. rewrite keys_set, decide_True; [done |].
  apply elem_of_keys. by rewrite Hu.
Qed.

Lemma edgeWeights_removeEdge g u v :
  edgeWeights (removeEdge g u v) = edgeWeights g.
Proof. unfold removeEdge. by destruct (get (edges g) u). Qed.

(** *** [nodes] lists the keys and the targets, each once *)

Lemma keys_mark_all (l : list NodeId) (nodeSet : JsObj.t bool) x :
  x ∈ keys (foldl (λ nodeSet v, set nodeSet v true) nodeSet l)
  ↔ x ∈ keys nodeSet ∨ x ∈ l.
Proof.
  revert nodeSet. induction l as [|y l IH]; intros nodeSet; cbn [foldl].
  - rewrite elem_of_nil. tauto.
  - rewrite IH, elem_of_keys_set, elem_of_cons. tauto.
Qed.

Lemma NoDup_mark_all (l : list NodeId) (nodeSet : JsObj.t bool) :
  NoDup (keys nodeSet) →
  NoDup (keys (foldl (λ nodeSet v, set nodeSet v true) nodeSet l)).
Proof.
  revert nodeSet. induction l as [|y l IH]; intros nodeSet Hnd; cbn [foldl].
  - done.
  - by apply IH, NoDup_keys_set.
Qed.

Lemma keys_nodeSet g (ks : list NodeId) (nodeSet : JsObj.t bool) x :
  x ∈ keys (foldl (λ nodeSet u,
                     foldl (λ nodeSet v, set nodeSet v true)
                           (set nodeSet u true) (adjacent g u))
                  nodeSet ks)
  ↔ x ∈ keys nodeSet ∨ x ∈ ks ∨ ∃ u, u ∈ ks ∧ x ∈ adjacent g u.
Proof.
  revert nodeSet. induction ks as [|k ks IH]; intros nodeSet; cbn [foldl].
  - split; [by left |]. intros [?|[Hx|(u & Hu & _)]]; [done | |].
    + by apply elem_of_nil in Hx.
    + by apply elem_of_nil in Hu.
  - rewrite IH, keys_mark_all, elem_of_keys_set. split.
    + intros [[[-> |?]|?]|[?|(u & ? & ?)]].
      * right. left. left.
      * by left.
      * right. right. exists k. split; [left | done].
      * right. left. by right.
      * right. right. exists u. split; [by right | done].
    + intros [?|[[-> |?]%elem_of_cons|(u & [-> |?]%elem_of_cons & ?)]].
      * left. left. by right.
      * left. left. by left.
      * right. by left.
      * left. by right.
      * right. right. by exists u.
Qed.

Lemma NoDup_nodeSet g (ks : list NodeId) (nodeSet : JsObj.t bool) :
  NoDup (keys nodeSet) →
  NoDup (keys (foldl (λ nodeSet u,
                        foldl (λ nodeSet v, set nodeSet v true)
                              (set nodeSet u true) (adjacent g u))
                     nodeSet ks)).
Proof.
  revert nodeSet. induction ks as [|k ks IH]; intros nodeSet Hnd; cbn [foldl].
  - done.
  - by apply IH, NoDup_mark_all, NoDup_keys_set.
Qed.

Lemma elem_of_nodes g x :
  x ∈ nodes g ↔ x ∈ keys (edges g) ∨ ∃ u, x ∈ adjacent g u.
Proof.
  unfold nodes. rewrite keys_nodeSet. split.
  - intros [Hx|[?|(u & ? & ?)]]; [by apply elem_of_nil in Hx | by left |].
    right. by exists u.
  - intros [?|(u & Hu)]; [right; by left |].
    right. right. exists u. split; [|done]. by eapply adjacent_key.
Qed.

Lemma NoDup_nodes g : NoDup (nodes g).
Proof. apply NoDup_nodeSet. constructor. Qed.

Lemma nodes_key g u : u ∈ keys (edges g) → u ∈ nodes g.
Proof. rewrite elem_of_nodes. by left. Qed.

Lemma nodes_target g u v : v ∈ adjacent g u → v ∈ nodes g.
Proof. rewrite elem_of_nodes. right. by exists u. Qed.

Lemma nodes_source g u v : v ∈ adjacent g u → u ∈ nodes g.
Proof. intros ?. by eapply nodes_key, adjacent_key. Qed.

Lemma wf_nodes g x : wf g → x ∈ nodes g ↔ x ∈ keys (edges g).
Proof.
  intros [_ Hcl]. rewrite elem_of_nodes. split; [|by left].
  intros [?|(u & Hu)]; [done | by eapply Hcl].
Qed.

End store.

(** *** [removeNode] *)

Section removeNode.
Import JsObj JsObjFacts.
Implicit Types (g : Graph) (u v x node : NodeId).

Lemma removeNode_inner g u node (l : list NodeId) :
  let g' := foldl (λ g v, if decide (v = node) then removeEdge g u v else g)
                  g l in
  keys (edges g') = keys (edges g) ∧
  edgeWeights g' = edgeWeights g ∧
  ∀ x, adjacent g' x
       = if decide (u = x ∧ node ∈ l)
         then filter (λ _v, _v ≠ node) (adjacent g x)
         else adjacent g x.
Proof.
  revert g. induction l as [|v l IH]; intros g; cbn [foldl].
  - split_and!; try done. intros x.
    rewrite decide_False; [done |]. intros [_ H]. by apply elem_of_nil in H.
  - destruct (decide (v = node)) as [-> |Hv].
    + destruct (IH (removeEdge g u node)) as (Hk & Hw & Ha).
      rewrite Hk, Hw, keys_removeEdge, edgeWeights_removeEdge.
      split_and!; try done. intros x. rewrite Ha, !adjacent_removeEdge.
      destruct (decide (u = x)) as [-> |Hne].
      * rewrite (decide_True (P := x = x ∧ node ∈ node :: l))
          by (split; [done | left]).
        destruct (decide (x = x ∧ node ∈ l)); [apply filter_ne_idemp | done].
      * by rewrite !decide_False by tauto.
    + destruct (IH g) as (Hk & Hw & Ha). split_and!; try done.
      intros x. rewrite Ha. apply decide_ext. rewrite elem_of_cons.
      split; [tauto |]. intros [? [?|?]]; done.
Qed.

Lemma removeNode_outer g node (ks : list NodeId) :
  let g' :=
    foldl (λ g u,
             foldl (λ g v, if decide (v = node) then removeEdge g u v else g)
                   g (adjacent g u))
          g ks in
  keys (edges g') = keys (edges g) ∧
  edgeWeights g' = edgeWeights g ∧
  ∀ x, adjacent g' x
       = if decide (x ∈ ks) then filter (λ _v, _v ≠ node) (adjacent g x)
         else adjacent g x.
Proof.
  revert g. induction ks as [|k ks IH]; intros g; cbn [foldl].
  - by split_and!.
  - pose proof (removeNode_inner g k node (adjacent g k)) as (Hk1 & Hw1 & Ha1).
    cbv zeta in Hk1, Hw1, Ha1.
    set (g1 := foldl _ g (adjacent g k)) in *.
    destruct (IH g1) as (Hk & Hw & Ha).
    rewrite Hk, Hw, Hk1, Hw1. split_and!; try done. intros x.
    assert (adjacent g1 x
            = if decide (k = x) then filter (λ _v, _v ≠ node) (adjacent g x)
              else adjacent g x) as Hg1.
    { rewrite Ha1. destruct (decide (k = x)) as [-> |Hne].
      - destruct (decide (node ∈ adjacent g x)) as [Hin|Hin].
        + by rewrite decide_True.
        + rewrite decide_False by tauto. by rewrite filter_ne_id.
      - by rewrite decide_False by tauto. }
    rewrite Ha, Hg1.
    destruct (decide (k = x)) as [-> |Hne].
    + rewrite (decide_True (P := x ∈ x :: ks)) by left.
      destruct (decide (x ∈ ks)); [apply filter_ne_idemp | done].
    + apply decide_ext. rewrite elem_of_cons. split; [tauto |].
      intros [?|?]; done.
Qed.

Lemma keys_removeNode g node :
  keys (edges (removeNode g node))
  = filter (λ x, x ≠ node) (keys (edges g)).
Proof.
  unfold removeNode. cbn [edges]. rewrite keys_delete.
  by destruct (removeNode_outer g node (keys (edges g))) as (-> & _ & _).
Qed.

Lemma adjacent_removeNode g node x :
  adjacent (removeNode g node) x
  = if decide (x = node) then []
    else filter (λ _v, _v ≠ node) (adjacent g x).
Proof.
  destruct (removeNode_outer g node (keys (edges g))) as (Hk & _ & Ha).
  cbv zeta in Hk, Ha. unfold removeNode, adjacent at 1. cbn [edges].
  destruct (decide (x = node)) as [-> |Hne].
  - by rewrite get_delete_eq.
  - rewrite get_delete_ne by done.
    fold (adjacent (foldl (λ g u,
             foldl (λ g v, if decide (v = node) then removeEdge g u v else g)
                   g (adjacent g u)) g (keys (edges g))) x).
    rewrite Ha. case_decide as Hx; [done |].
    by rewrite (adjacent_not_key _ _ Hx).
Qed.

Lemma edgeWeights_removeNode g node :
  edgeWeights (removeNode g node) = edgeWeights g.
Proof.
  unfold removeNode. cbn [edgeWeights].
  by destruct (removeNode_outer g node (keys (edges g))) as (_ & -> & _).
Qed.

(** *** The interface keeps the store well formed *)

Lemma wf_empty : wf emptyGraph.
Proof.
  split; [constructor |]. intros u v H. by apply elem_of_nil in H.
Qed.

Lemma wf_addNode g node : wf g → wf (addNode g node).
Proof.
  intros [Hnd Hcl]. split; [by apply NoDup_keys_set |].
  intros u v. rewrite adjacent_addNode, elem_of_keys_addNode. eauto.
Qed.

Lemma wf_addEdge g u v weight edgeId :
  wf g → wf (addEdge g u v weight edgeId).
Proof.
  intros [Hnd Hcl]. split.
  - rewrite edges_addEdge. by do 3 apply NoDup_keys_set.
  - intros a b. rewrite adjacent_addEdge, elem_of_keys_addEdge.
    case_decide; [|by eauto].
    rewrite elem_of_app, list_elem_of_singleton. intros [?| ->]; eauto.
Qed.

Lemma wf_removeEdge g u v : wf g → wf (removeEdge g u v).
Proof.
  intros [Hnd Hcl]. split; rewrite keys_removeEdge; [done |].
  intros a b. rewrite adjacent_removeEdge.
  case_decide; [|by eauto]. rewrite list_elem_of_filter. intros [_ ?]; eauto.
Qed.

Lemma wf_removeNode g node : wf g → wf (removeNode g node).
Proof.
  intros [Hnd Hcl]. split; rewrite keys_removeNode; [by apply NoDup_filter |].
  intros a b. rewrite adjacent_removeNode.
  case_decide; [by intros ?%elem_of_nil |].
  rewrite !list_elem_of_filter. intros [? ?]; eauto.
Qed.

Lemma wf_setEdgeWeight g u v weight : wf g → wf (setEdgeWeight g u v weight).
Proof. done. Qed.

Lemma wf_setEdgeId g u v edgeId : wf g → wf (setEdgeId g u v edgeId).
Proof. done. Qed.

Lemma wf_deserialize g serialized : wf g → wf (deserialize g serialized).
Proof.
  unfold deserialize. destruct serialized as [ns ls].
  cbn [Serialized.nodes Serialized.links].
  intros Hwf.
  assert (wf (foldl (λ g n, addNode g (SNode.id n)) g ns)) as Hwf1.
  { clear ls. revert g Hwf. induction ns as [|n ns IH]; intros g Hwf; [done |].
    cbn [foldl]. by apply IH, wf_addNode. }
  revert Hwf1. generalize (foldl (λ g n, addNode g (SNode.id n)) g ns).
  clear. induction ls as [|l ls IH]; intros g Hwf; [done |].
  cbn [foldl]. by apply IH, wf_addEdge.
Qed.

Lemma built_wf g : built g → wf g.
Proof.
  induction 1;
    eauto using wf_empty, wf_addNode, wf_removeNode, wf_addEdge,
      wf_removeEdge, wf_setEdgeWeight, wf_setEdgeId, wf_deserialize.
Qed.

End removeNode.

(** ** Removing edges and nodes *)

Section store_claims.
Import JsObj JsObjFacts.
Implicit Types (g : Graph) (u v x y z : NodeId) (w : EdgeWeight).

Lemma hasEdge_true g u v : hasEdge g u v = true ↔ v ∈ adjacent g u.
Proof. unfold hasEdge. apply bool_decide_eq_true. Qed.

Lemma hasEdge_false g u v : hasEdge g u v = false ↔ v ∉ adjacent g u.
Proof. unfold hasEdge. apply bool_decide_eq_false. Qed.

(** An edge added with a weight argument has that weight in the table. *)
Lemma addEdge_explicit_weight g u v w edgeId :
  hasEdge (addEdge g u v (Some w) edgeId) u v = true ∧
  edgeWeights (addEdge g u v (Some w) edgeId) !! encodeEdge u v = Some w.
Proof.
  split.
  - apply hasEdge_true. rewrite adjacent_addEdge, decide_True by done.
    apply elem_of_app. right. left.
  - rewrite edgeWeights_addEdge. apply lookup_insert_eq.
Qed.

(** So has an existing edge after [setEdgeWeight]. *)
Lemma setEdgeWeight_explicit_weight g u v w :
  hasEdge g u v = true →
  hasEdge (setEdgeWeight g u v w) u v = true ∧
  edgeWeights (setEdgeWeight g u v w) !! encodeEdge u v = Some w.
Proof. intros H. split; [done | apply lookup_insert_eq]. Qed.

End store_claims.

(** C8.  Let the edge (u, v) be present with the weight [w] set explicitly
    (by [addEdge] with a weight argument or by [setEdgeWeight]).  After
    [removeEdge(u, v)], [hasEdge(u, v)] is false and [getEdgeId(u, v)] is
    undefined, but [getEdgeWeight(u, v)] is still [w]; and adding the edge
    again without a weight argument gives it the weight [w] once more. *)
Theorem removeEdge_keeps_weight (g : Graph) (u v : NodeId) (w : EdgeWeight) :
  hasEdge g u v = true →
  edgeWeights g !! encodeEdge u v = Some w →
  hasEdge (removeEdge g u v) u v = false ∧
  getEdgeId (removeEdge g u v) u v = None ∧
  getEdgeWeight (removeEdge g u v) u v = w ∧
  getEdgeWeight (addEdge (removeEdge g u v) u v None None) u v = w.
Proof.
  intros Hedge Hw. apply hasEdge_true in Hedge.
  pose proof (adjacent_key _ _ _ Hedge) as Hkey.
  apply JsObjFacts.elem_of_keys in Hkey as [a Ha].
  split_and!.
  - apply hasEdge_false. rewrite adjacent_removeEdge, decide_True by done.
    rewrite list_elem_of_filter. tauto.
  - unfold getEdgeId, removeEdge. rewrite Ha. cbn [edgeIds].
    apply lookup_delete_eq.
  - unfold getEdgeWeight. by rewrite edgeWeights_removeEdge, Hw.
  - unfold getEdgeWeight.
    by rewrite edgeWeights_addEdge, edgeWeights_removeEdge, Hw.
Qed.

Lemma removeEdge_keeps_weight_witness :
  let g := addEdge emptyGraph "a" "b" (Some 5%Z) (Some "e1") in
  (hasEdge g "a" "b" = true ∧
   edgeWeights g !! encodeEdge "a" "b" = Some 5%Z) ∧
  hasEdge (removeEdge g "a" "b") "a" "b" = false ∧
  getEdgeId (removeEdge g "a" "b") "a" "b" = None ∧
  getEdgeWeight (removeEdge g "a" "b") "a" "b" = 5%Z ∧
  getEdgeWeight (addEdge (removeEdge g "a" "b") "a" "b" None None) "a" "b"
  = 5%Z.
Proof.
  intros g. split.
  - split; vm_compute; reflexivity.
  - apply (removeEdge_keeps_weight g "a" "b" 5); vm_compute; reflexivity.
Defined.



(** ** Loops over arrays *)

Section forEachM.
Context {A S : Type} (f : A → S → outcome S).

(** An invariant that follows the processed prefix of the array. *)
Lemma forEachM_ret_ind (I : list A → S → Prop) (xs : list A) :
  (∀ pre x s s', x ∈ xs → I pre s → f x s = Ret s' → I (pre ++ [x]) s') →
  ∀ pre s s', I pre s → forEachM f xs s = Ret s' → I (pre ++ xs) s'.
Proof.
  induction xs as [|x xs IH]; intros Hstep pre s s' HI Hrun; cbn in Hrun.
  - simplify_eq. by rewrite app_nil_r.
  - destruct (f x s) as [s1| |] eqn:Hx; cbn in Hrun; try done.
    rewrite (cons_middle x), app_assoc. apply (IH) with (s := s1); try done.
    + intros pre' y t t' Hy. apply Hstep. by right.
    + eapply Hstep; [left | done | done].
Qed.

Lemma forEachM_ret (I : S → Prop) (xs : list A) s s' :
  (∀ x s s', x ∈ xs → I s → f x s = Ret s' → I s') →
  I s → forEachM f xs s = Ret s' → I s'.
Proof.
  intros Hstep HI Hrun.
  apply (forEachM_ret_ind (λ _, I) xs) with (pre := []) (s := s); eauto.
Qed.

(** A loop that does not return stopped in one of its calls. *)
Lemma forEachM_stops (I : S → Prop) (xs : list A) s r :
  (∀ x s s', x ∈ xs → I s → f x s = Ret s' → I s') →
  I s → forEachM f xs s = r → (∀ s', r ≠ Ret s') →
  ∃ x s0, x ∈ xs ∧ I s0 ∧ f x s0 = r.
Proof.
  revert s. induction xs as [|x xs IH]; intros s Hstep HI Hrun Hr; cbn in Hrun.
  - by destruct (Hr s).
  - destruct (f x s) as [s1| |] eqn:Hx; cbn in Hrun.
    + destruct (IH s1) as (y & s0 & Hy & H0 & Hf); try done.
      * intros y t t' Hy. apply Hstep. by right.
      * eapply Hstep; [left | done | done].
      * exists y, s0. split_and!; [by right | done | done].
    + exists x, s. split_and!; [left | done | congruence].
    + exists x, s. split_and!; [left | done | congruence].
Qed.

End forEachM.

(** ** The traversal returns or throws *)

Section dfs_total.
Import JsObj JsObjFacts.
Context (g : Graph) (options : DfsOptions).
Implicit Types (st : DfsState) (node : NodeId) (from : option NodeId).

Lemma DFSVisit_S fuel node from st :
  DFSVisit (S fuel) g options node from st
  = if truthy (visiting st !! node) && truthy (errorOnCycle options) then
      Throw (CycleError "Cycle found")
    else if truthy (visiting st !! node) && truthy (collectCycles options)
    then
      Ret (mkDfs (visited st) (visiting st) (nodeList st)
                 (set (cycles st) (propertyKey from) node))
    else if negb (truthy (visited st !! node)) then
      st2 ← forEachM (λ adjacent, DFSVisit fuel g options adjacent (Some node))
                     (adjacent g node)
                     (mkDfs (<[node := true]> (visited st))
                            (<[node := true]> (visiting st))
                            (nodeList st) (cycles st));
      Ret (mkDfs (visited st2) (<[node := false]> (visiting st2))
                 (nodeList st2 ++ [node]) (cycles st2))
    else Ret st.
Proof. done. Qed.

Lemma filter_length_mono (P Q : NodeId → Prop)
    `{∀ x, Decision (P x)} `{∀ x, Decision (Q x)} (l : list NodeId) :
  (∀ x, P x → Q x) → (length (filter P l) ≤ length (filter Q l))%nat.
Proof.
  intros HPQ. induction l as [|x l IH]; [done |].
  destruct (decide (P x)) as [HP|HP].
  - rewrite !filter_cons_True by eauto. cbn. lia.
  - rewrite (filter_cons_False P) by done.
    destruct (decide (Q x)).
    + rewrite filter_cons_True by done. cbn. lia.
    + by rewrite filter_cons_False.
Qed.

Lemma filter_length_lt (P Q : NodeId → Prop)
    `{∀ x, Decision (P x)} `{∀ x, Decision (Q x)} (l : list NodeId) k :
  (∀ x, P x → Q x) → k ∈ l → Q k → ¬ P k →
  (length (filter P l) < length (filter Q l))%nat.
Proof.
  intros HPQ Hk HQ HP. induction l as [|x l IH]; [by apply elem_of_nil in Hk |].
  apply elem_of_cons in Hk as [<-|Hk].
  - rewrite (filter_cons_False P), (filter_cons_True Q) by done. cbn.
    pose proof (filter_length_mono P Q l HPQ). lia.
  - specialize (IH Hk). destruct (decide (P x)) as [HPx|HPx].
    + rewrite !filter_cons_True by eauto. cbn. lia.
    + rewrite (filter_cons_False P) by done.
      destruct (decide (Q x)).
      * rewrite filter_cons_True by done. cbn. lia.
      * by rewrite filter_cons_False.
Qed.

Lemma unvisited_mono st st' :
  visitedGrows st st' →
  (length (unvisited g st') ≤ length (unvisited g st))%nat.
Proof.
  intros Hg. apply filter_length_mono. intros x Hx.
  apply not_true_is_false. intros Hv. apply Hg in Hv.
  unfold isVisited in Hv. congruence.
Qed.

Lemma visitedGrows_refl st : visitedGrows st st.
Proof. by intros n. Qed.

Lemma visitedGrows_trans st1 st2 st3 :
  visitedGrows st1 st2 → visitedGrows st2 st3 → visitedGrows st1 st3.
Proof. intros H12 H23 n ?. eauto. Qed.

Lemma isVisited_insert st node n vi nl cy :
  isVisited (mkDfs (<[node := true]> (visited st)) vi nl cy) n
  ↔ n = node ∨ isVisited st n.
Proof.
  unfold isVisited. cbn [visited]. rewrite lookup_insert.
  destruct (decide (node = n)) as [->|]; cbn; [tauto |].
  split; [by right | by intros [?|?]].
Qed.

(** With more fuel than there are unvisited keys, a visit does not run
    out of fuel; and it never unmarks a node. *)
Lemma DFSVisit_total fuel :
  ∀ node from st,
    (length (unvisited g st) < fuel)%nat →
    match DFSVisit fuel g options node from st with
    | Ret st' => visitedGrows st st'
    | Throw _ => True
    | OutOfFuel => False
    end.
Proof.
  induction fuel as [|fuel IH]; intros node from st Hfuel; [lia |].
  rewrite DFSVisit_S.
  destruct (truthy (visiting st !! node) && truthy (errorOnCycle options));
    [done |].
  destruct (truthy (visiting st !! node) && truthy (collectCycles options));
    [by intros n |].
  destruct (truthy (visited st !! node)) eqn:Hvis; cbn [negb];
    [apply visitedGrows_refl |].
  set (st1 := mkDfs _ _ _ _).
  assert (visitedGrows st st1) as Hg1.
  { intros n Hn. apply isVisited_insert. by right. }
  destruct (decide (node ∈ keys (edges g))) as [Hkey|Hkey].
  - assert (length (unvisited g st1) < fuel)%nat as Hlt.
    { assert (length (unvisited g st1) < length (unvisited g st))%nat; [|lia].
      apply (filter_length_lt _ _ _ node); try done.
      - intros x Hx. apply not_true_is_false. intros Hv.
        apply Hg1 in Hv. unfold isVisited in Hv. congruence.
      - cbn [st1 visited]. by rewrite lookup_insert_eq. }
    destruct (forEachM _ (adjacent g node) st1) as [st2| |] eqn:Hrun; cbn.
    + intros n Hn. unfold isVisited. cbn [visited].
      revert n Hn. change (visitedGrows st st2).
      apply visitedGrows_trans with st1; [done |].
      apply (forEachM_ret _ (λ s, visitedGrows st1 s) _ _ _) in Hrun;
        [done | | apply visitedGrows_refl].
      intros a s s' _ Hs Ha.
      pose proof (IH a (Some node) s) as Hc. rewrite Ha in Hc.
      eapply visitedGrows_trans; [done |]. apply Hc.
      pose proof (unvisited_mono _ _ Hs). lia.
    + done.
    + apply (forEachM_stops _ (λ s, visitedGrows st1 s)) in Hrun
        as (a & s0 & _ & Hs0 & Ha); try done.
      * pose proof (IH a (Some node) s0) as Hc. rewrite Ha in Hc.
        apply Hc. pose proof (unvisited_mono _ _ Hs0). lia.
      * intros a s s' _ Hs Ha.
        pose proof (IH a (Some node) s) as Hc. rewrite Ha in Hc.
        eapply visitedGrows_trans; [done |]. apply Hc.
        pose proof (unvisited_mono _ _ Hs). lia.
      * apply visitedGrows_refl.
  - rewrite (adjacent_not_key _ _ Hkey). cbn. intros n Hn. by apply Hg1.
Qed.

Lemma DFSVisit_total_ret fuel node from st st' :
  (length (unvisited g st) < fuel)%nat →
  DFSVisit fuel g options node from st = Ret st' → visitedGrows st st'.
Proof.
  intros Hfuel Hrun. pose proof (DFSVisit_total fuel node from st Hfuel) as H.
  by rewrite Hrun in H.
Qed.



End dfs_total.

(** ** Post-order lists *)

Section topo.
Context (g : Graph).
Implicit Types (r : list NodeId) (u v : NodeId).







End topo.

(** ** A traversal that fails on cycles *)

Section dfs_errorOnCycle.
Import JsObj JsObjFacts.
Context (g : Graph) (options : DfsOptions).
Context (HerrorOnCycle : truthy (errorOnCycle options) = true).
Implicit Types (st : DfsState) (node : NodeId) (from : option NodeId).









End dfs_errorOnCycle.

(** ** [topologicalSort], [hasCycle] and [getCycles] over all the nodes *)

Section dfs_claims.
Import JsObj JsObjFacts.
Context (g : Graph).





End dfs_claims.






(** ** Lowest common ancestors *)

Section everyM.
Context {A S : Type} (f : A → S → outcome (bool * S)).

Lemma everyM_ret (I : S → Prop) (xs : list A) s b s' :
  (∀ x s b s', x ∈ xs → I s → f x s = Ret (b, s') → I s') →
  I s → everyM f xs s = Ret (b, s') → I s'.
Proof.
  revert s. induction xs as [|x xs IH]; intros s Hstep HI Hrun; cbn in Hrun.
  - by simplify_eq.
  - destruct (f x s) as [[b1 s1]| |] eqn:Hx; cbn in Hrun; try done.
    assert (I s1) as HI1 by (eapply Hstep; [left | done | done]).
    destruct b1; [|by simplify_eq].
    apply (IH s1); [|done..]. intros y t c t' Hy. apply Hstep. by right.
Qed.


Lemma everyM_stops (I : S → Prop) (xs : list A) s r :
  (∀ x s b s', x ∈ xs → I s → f x s = Ret (b, s') → I s') →
  I s → everyM f xs s = r → (∀ bs, r ≠ Ret bs) →
  ∃ x s0, x ∈ xs ∧ I s0 ∧ f x s0 = r.
Proof.
  revert s. induction xs as [|x xs IH]; intros s Hstep HI Hrun Hr; cbn in Hrun.
  - by destruct (Hr (true, s)).
  - destruct (f x s) as [[b1 s1]| |] eqn:Hx; cbn in Hrun.
    + destruct b1; [|by destruct (Hr (false, s1))].
      destruct (IH s1) as (y & s0 & Hy & H0 & Hf); try done.
      * intros y t c t' Hy. apply Hstep. by right.
      * eapply Hstep; [left | done | done].
      * exists y, s0. split_and!; [by right | done | done].
    + exists x, s. split_and!; [left | done | congruence].
    + exists x, s. split_and!; [left | done | congruence].
Qed.

End everyM.

Section marks.
Import JsObj JsObjFacts.
Context (g : Graph).
Implicit Types (m : gmap NodeId bool) (node : NodeId).

Lemma marksGrow_refl m : marksGrow m m.
Proof. by intros n. Qed.

Lemma marksGrow_trans m1 m2 m3 :
  marksGrow m1 m2 → marksGrow m2 m3 → marksGrow m1 m3.
Proof. intros H12 H23 n ?. eauto. Qed.

Lemma marksGrow_insert m node : marksGrow m (<[node := true]> m).
Proof.
  intros n Hn. rewrite lookup_insert. by destruct (decide (node = n)).
Qed.

Lemma unmarked_mono m m' :
  marksGrow m m' → (length (unmarked g m') ≤ length (unmarked g m))%nat.
Proof.
  intros Hg. apply filter_length_mono. intros x Hx.
  apply not_true_is_false. intros Hv. apply Hg in Hv. congruence.
Qed.

Lemma unmarked_insert m node :
  node ∈ keys (edges g) → truthy (m !! node) = false →
  (length (unmarked g (<[node := true]> m)) < length (unmarked g m))%nat.
Proof.
  intros Hkey Hnew. apply (filter_length_lt _ _ _ node); try done.
  - intros x Hx. apply not_true_is_false. intros Hv.
    apply (marksGrow_insert m node) in Hv. congruence.
  - by rewrite lookup_insert_eq.
Qed.

Lemma unmarked_dfsFuel m : (length (unmarked g m) < dfsFuel g)%nat.
Proof.
  unfold dfsFuel, unmarked.
  pose proof (length_filter (λ k, truthy (m !! k) = false) (keys (edges g))).
  lia.
Qed.

End marks.

Section lca.
Import JsObj JsObjFacts.
Context (g : Graph) (node1 node2 : NodeId).
Implicit Types (st : LcaState) (node : NodeId).

Lemma CA1Visit_S fuel node st :
  CA1Visit (S fuel) g node2 node st
  = if negb (truthy (lcaVisited st !! node)) then
      if decide (node = node2) then
        Ret (false, mkLca (<[node := true]> (lcaVisited st))
                          (node1Ancestors st ++ [node]) (lcas st ++ [node]))
      else everyM (CA1Visit fuel g node2) (adjacent g node)
                  (mkLca (<[node := true]> (lcaVisited st))
                         (node1Ancestors st ++ [node]) (lcas st))
    else Ret (true, st).
Proof. done. Qed.

Lemma CA2Visit_S fuel node st :
  CA2Visit (S fuel) g node st
  = if negb (truthy (lcaVisited st !! node)) then
      if bool_decide (node ∈ node1Ancestors st) then
        Ret (mkLca (<[node := true]> (lcaVisited st)) (node1Ancestors st)
                   (lcas st ++ [node]))
      else if bool_decide (length (lcas st) = 0) then
        forEachM (CA2Visit fuel g) (adjacent g node)
                 (mkLca (<[node := true]> (lcaVisited st))
                        (node1Ancestors st) (lcas st))
      else Ret (mkLca (<[node := true]> (lcaVisited st))
                      (node1Ancestors st) (lcas st))
    else Ret st.
Proof. done. Qed.

(** Neither visit throws, and with more fuel than unmarked keys neither
    runs out of fuel. *)
Lemma CA1Visit_total fuel :
  ∀ node st,
    (length (unmarked g (lcaVisited st)) < fuel)%nat →
    ∃ b st', CA1Visit fuel g node2 node st = Ret (b, st') ∧
             marksGrow (lcaVisited st) (lcaVisited st').
Proof.
  induction fuel as [|fuel IH]; intros node st Hfuel; [lia |].
  rewrite CA1Visit_S.
  destruct (truthy (lcaVisited st !! node)) eqn:Hvis; cbn [negb].
  { eexists _, _. split; [done | apply marksGrow_refl]. }
  destruct (decide (node = node2)) as [->|Hne].
  { eexists _, _. split; [done | apply marksGrow_insert]. }
  set (st1 := mkLca _ _ _).
  destruct (decide (node ∈ keys (edges g))) as [Hkey|Hkey].
  - pose proof (unmarked_insert g _ _ Hkey Hvis) as Hlt.
    assert (∀ a s b s', marksGrow (lcaVisited st1) (lcaVisited s) →
              CA1Visit fuel g node2 a s = Ret (b, s') →
              marksGrow (lcaVisited st1) (lcaVisited s')) as Hstep.
    { intros a s b s' Hs Ha.
      destruct (IH a s) as (b' & s'' & Hr & Hg).
      - pose proof (unmarked_mono g _ _ Hs). cbn [st1 lcaVisited] in *. lia.
      - rewrite Ha in Hr. simplify_eq. by eapply marksGrow_trans. }
    destruct (everyM _ (adjacent g node) st1) as [[b st2]| |] eqn:Hrun.
    + exists b, st2. split; [done |].
      eapply marksGrow_trans; [apply marksGrow_insert |].
      apply (everyM_ret _ (λ s, marksGrow (lcaVisited st1) (lcaVisited s)))
        in Hrun; [exact Hrun | by eauto | apply marksGrow_refl].
    + apply (everyM_stops _ (λ s, marksGrow (lcaVisited st1) (lcaVisited s)))
        in Hrun as (a & s0 & _ & Hs0 & Ha);
        [| by eauto | apply marksGrow_refl | done].
      destruct (IH a s0) as (b' & s'' & Hr & _); [|congruence].
      pose proof (unmarked_mono g _ _ Hs0). cbn [st1 lcaVisited] in *. lia.
    + apply (everyM_stops _ (λ s, marksGrow (lcaVisited st1) (lcaVisited s)))
        in Hrun as (a & s0 & _ & Hs0 & Ha);
        [| by eauto | apply marksGrow_refl | done].
      destruct (IH a s0) as (b' & s'' & Hr & _); [|congruence].
      pose proof (unmarked_mono g _ _ Hs0). cbn [st1 lcaVisited] in *. lia.
  - rewrite (adjacent_not_key _ _ Hkey). cbn [everyM].
    eexists _, _. split; [done | apply marksGrow_insert].
Qed.

Lemma CA2Visit_total fuel :
  ∀ node st,
    (length (unmarked g (lcaVisited st)) < fuel)%nat →
    ∃ st', CA2Visit fuel g node st = Ret st' ∧
           marksGrow (lcaVisited st) (lcaVisited st').
Proof.
  induction fuel as [|fuel IH]; intros node st Hfuel; [lia |].
  rewrite CA2Visit_S.
  destruct (truthy (lcaVisited st !! node)) eqn:Hvis; cbn [negb].
  { eexists. split; [done | apply marksGrow_refl]. }
  destruct (bool_decide (node ∈ node1Ancestors st)).
  { eexists. split; [done | apply marksGrow_insert]. }
  destruct (bool_decide (length (lcas st) = 0));
    [|eexists; split; [done | apply marksGrow_insert]].
  set (st1 := mkLca _ _ _).
  destruct (decide (node ∈ keys (edges g))) as [Hkey|Hkey].
  - pose proof (unmarked_insert g _ _ Hkey Hvis) as Hlt.
    assert (∀ a s s', marksGrow (lcaVisited st1) (lcaVisited s) →
              CA2Visit fuel g a s = Ret s' →
              marksGrow (lcaVisited st1) (lcaVisited s')) as Hstep.
    { intros a s s' Hs Ha.
      destruct (IH a s) as (s'' & Hr & Hg).
      - pose proof (unmarked_mono g _ _ Hs). cbn [st1 lcaVisited] in *. lia.
      - rewrite Ha in Hr. simplify_eq. by eapply marksGrow_trans. }
    destruct (forEachM _ (adjacent g node) st1) as [st2| |] eqn:Hrun.
    + exists st2. split; [done |].
      eapply marksGrow_trans; [apply marksGrow_insert |].
      apply (forEachM_ret _ (λ s, marksGrow (lcaVisited st1) (lcaVisited s)))
        in Hrun; [exact Hrun | by eauto | apply marksGrow_refl].
    + apply (forEachM_stops _ (λ s, marksGrow (lcaVisited st1) (lcaVisited s)))
        in Hrun as (a & s0 & _ & Hs0 & Ha);
        [| by eauto | apply marksGrow_refl | done].
      destruct (IH a s0) as (s'' & Hr & _); [|congruence].
      pose proof (unmarked_mono g _ _ Hs0). cbn [st1 lcaVisited] in *. lia.
    + apply (forEachM_stops _ (λ s, marksGrow (lcaVisited st1) (lcaVisited s)))
        in Hrun as (a & s0 & _ & Hs0 & Ha);
        [| by eauto | apply marksGrow_refl | done].
      destruct (IH a s0) as (s'' & Hr & _); [|congruence].
      pose proof (unmarked_mono g _ _ Hs0). cbn [st1 lcaVisited] in *. lia.
  - rewrite (adjacent_not_key _ _ Hkey). cbn [forEachM].
    eexists. split; [done | apply marksGrow_insert].
Qed.

(** From here on no node is reachable from both [node1] and [node2]. *)
Context (Hdisjoint : ¬ ∃ w, reaches g node1 w ∧ reaches g node2 w).




End lca.



(** *** Nodes without incoming or outgoing edges *)

Section degrees.
Import JsObj JsObjFacts.
Context (g : Graph).
Implicit Types (u v : NodeId).

Lemma count_targets_ge v (l : list NodeId) (degree : nat) :
  (degree ≤ foldl (λ degree x, if decide (x = v) then S degree else degree)
                  degree l)%nat.
Proof.
  revert degree. induction l as [|x l IH]; intros degree; cbn [foldl]; [lia |].
  destruct (decide (x = v)); [|apply IH]. pose proof (IH (S degree)). lia.
Qed.

Lemma count_targets_gt v (l : list NodeId) (degree : nat) :
  v ∈ l →
  (degree < foldl (λ degree x, if decide (x = v) then S degree else degree)
                  degree l)%nat.
Proof.
  revert degree. induction l as [|x l IH]; intros degree Hv; cbn [foldl].
  - by apply elem_of_nil in Hv.
  - destruct (decide (x = v)) as [->|Hne].
    + pose proof (count_targets_ge v l (S degree)). lia.
    + apply IH. apply elem_of_cons in Hv as [?|?]; [congruence | done].
Qed.

Lemma count_incoming_pos v (ks : list NodeId) (degree : nat) u :
  u ∈ ks → v ∈ adjacent g u →
  (degree <
   foldl (λ degree u,
            foldl (λ degree x, if decide (x = v) then S degree else degree)
                  degree (adjacent g u))
         degree ks)%nat.
Proof.
  intros Hu Hv. revert degree.
  induction ks as [|k ks IH]; intros degree; cbn [foldl].
  - by apply elem_of_nil in Hu.
  - assert (∀ d,
      (d ≤ foldl (λ degree u,
                    foldl (λ degree x,
                             if decide (x = v) then S degree else degree)
                          degree (adjacent g u)) d ks)%nat) as Hge.
    { clear. induction ks as [|k' ks IH']; intros d; cbn [foldl]; [lia |].
      pose proof (count_targets_ge v (adjacent g k') d).
      pose proof (IH' (foldl (λ degree x,
                                if decide (x = v) then S degree else degree)
                             d (adjacent g k'))). lia. }
    apply elem_of_cons in Hu as [<-|Hu].
    + pose proof (count_targets_gt v (adjacent g u) degree Hv).
      pose proof (Hge (foldl (λ degree x,
                                if decide (x = v) then S degree else degree)
                             degree (adjacent g u))). lia.
    + pose proof (count_targets_ge v (adjacent g k) degree).
      pose proof (IH Hu (foldl (λ degree x,
                                  if decide (x = v) then S degree else degree)
                               degree (adjacent g k))). lia.
Qed.

Lemma indegree_0_no_edge u v : indegree g v = 0 → ¬ edge g u v.
Proof.
  intros Hdeg Huv. unfold indegree in Hdeg.
  pose proof (count_incoming_pos v (keys (edges g)) 0 u
                (adjacent_key _ _ _ Huv) Huv). lia.
Qed.

Lemma indegree_0_reaches u v : indegree g v = 0 → reaches g u v → u = v.
Proof.
  intros Hdeg Huv. apply rtc_inv_r in Huv as [?|(w & _ & Hwv)]; [done |].
  by apply indegree_0_no_edge in Hwv.
Qed.


End degrees.



(** ** Shortest path: the stages of [shortestPath] *)

Section sp_basic.
Import JsObj JsObjFacts.
Context (g : Graph).
Implicit Types (st : SpState) (u v source destination : NodeId).

(** *** [initializeSingleSource] *)

Lemma init_d_lookup (l : list NodeId) (d0 : gmap NodeId Dist) v :
  foldl (λ d node, <[node := Inf]> d) d0 l !! v
  = if decide (v ∈ l) then Some Inf else d0 !! v.
Proof.
  revert d0. induction l as [|x l IH]; intros d0; cbn [foldl].
  - by rewrite decide_False by apply not_elem_of_nil.
  - rewrite IH. destruct (decide (v ∈ l)) as [Hin|Hin].
    + by rewrite decide_True by (by right).
    + rewrite lookup_insert. destruct (decide (x = v)) as [->|Hne].
      * by rewrite decide_True by left.
      * rewrite decide_False; [done |].
        intros [?|?]%elem_of_cons; congruence.
Qed.

Lemma initializeSingleSource_spec source destination :
  initializeSingleSource g source destination (mkSp ∅ ∅ JsObj.empty)
  = if decide (source ∈ nodes g) then
      if decide (destination ∈ nodes g) then
        Ret (mkSp (<[source := Fin 0]>
                     (foldl (λ d node, <[node := Inf]> d) ∅ (nodes g)))
                  ∅ JsObj.empty)
      else Throw (Error "Destination node is not in the graph")
    else Throw (Error "Source node is not in the graph").
Proof.
  unfold initializeSingleSource. cbn [d p q]. rewrite !init_d_lookup.
  destruct (decide (source ∈ nodes g)).
  - rewrite bool_decide_eq_false_2 by (by intros []).
    destruct (decide (destination ∈ nodes g)).
    + by rewrite bool_decide_eq_false_2 by (by intros []).
    + by rewrite bool_decide_eq_true_2 by (by rewrite lookup_empty).
  - by rewrite bool_decide_eq_true_2 by (by rewrite lookup_empty).
Qed.

Lemma keys_initializePriorityQueue (l : list NodeId) (q0 : JsObj.t bool) :
  (length (keys (foldl (λ q node, set q node true) q0 l))
   ≤ length (keys q0) + length l)%nat.
Proof.
  revert q0. induction l as [|x l IH]; intros q0; cbn [foldl length]; [lia |].
  pose proof (IH (set q0 x true)) as H. rewrite keys_set in H.
  destruct (decide (x ∈ keys q0)); [lia |].
  rewrite length_app in H. cbn in H. lia.
Qed.

(** *** [extractMin] *)

Lemma dist_ltb_trans a b c :
  dist_ltb a b = true → dist_ltb c b = false → dist_ltb c a = false.
Proof.
  destruct a as [x|], b as [y|], c as [z|]; cbn; try done.
  intros ?%Z.ltb_lt ?%Z.ltb_ge. apply Z.ltb_ge. lia.
Qed.

Lemma dist_ltb_irrefl a : dist_ltb a a = false.
Proof. destruct a; [apply Z.ltb_irrefl | done]. Qed.

Lemma scan_step (d : gmap NodeId Dist) (l pre : list NodeId) acc :
  scanned d pre acc →
  scanned d (pre ++ l)
    (foldl (λ acc node,
              match d !! node with
              | Some dn => if dist_ltb dn acc.1 then (dn, Some node) else acc
              | None => acc
              end) acc l).
Proof.
  revert pre acc. induction l as [|x l IH]; intros pre acc Hacc; cbn [foldl].
  - by rewrite app_nil_r.
  - rewrite (cons_middle x), app_assoc. apply IH.
    destruct acc as [m mn]. unfold scanned in *. cbn [fst snd] in *.
    destruct (d !! x) as [dn|] eqn:Hx.
    + destruct (dist_ltb dn m) eqn:Hlt; cbn [fst snd].
      * split_and!.
        -- apply elem_of_app. right. left.
        -- done.
        -- intros ->. by destruct m.
        -- intros k dk [Hk| ->%list_elem_of_singleton]%elem_of_app Hdk.
           ++ destruct mn as [u|].
              ** destruct Hacc as (_ & _ & _ & Hmin).
                 eapply dist_ltb_trans; [done |]. by eapply Hmin.
              ** destruct Hacc as [-> Hall].
                 destruct (Hall k Hk) as [?|?]; [congruence |].
                 assert (dk = Inf) as -> by congruence. done.
           ++ assert (dk = dn) as -> by congruence. apply dist_ltb_irrefl.
      * destruct mn as [u|].
        -- destruct Hacc as (Hu & Hdu & Hfin & Hmin). split_and!; try done.
           ++ apply elem_of_app. by left.
           ++ intros k dk [Hk| ->%list_elem_of_singleton]%elem_of_app Hdk.
              ** by eapply Hmin.
              ** congruence.
        -- destruct Hacc as [-> Hall]. split; [done |].
           intros k [Hk| ->%list_elem_of_singleton]%elem_of_app; [auto |].
           right. rewrite Hx. f_equal. by destruct dn.
    + destruct mn as [u|].
      * destruct Hacc as (Hu & Hdu & Hfin & Hmin). split_and!; try done.
        -- apply elem_of_app. by left.
        -- intros k dk [Hk| ->%list_elem_of_singleton]%elem_of_app Hdk.
           ++ by eapply Hmin.
           ++ congruence.
      * destruct Hacc as [-> Hall]. split; [done |].
        intros k [Hk| ->%list_elem_of_singleton]%elem_of_app; auto.
Qed.

Lemma extractMin_spec st :
  match extractMin st with
  | (None, st') =>
      st' = mkSp (d st) (p st) JsObj.empty ∧
      ∀ k, k ∈ keys (q st) → d st !! k = None ∨ d st !! k = Some Inf
  | (Some u, st') =>
      st' = mkSp (d st) (p st) (delete (q st) u) ∧ u ∈ keys (q st) ∧
      ∃ du, d st !! u = Some (Fin du) ∧
            ∀ k dk, k ∈ keys (q st) → d st !! k = Some (Fin dk) → (du ≤ dk)%Z
  end.
Proof.
  unfold extractMin.
  pose proof (scan_step (d st) (keys (q st)) [] (Inf, None)) as Hscan.
  rewrite app_nil_l in Hscan.
  destruct (foldl _ (Inf, None) (keys (q st))) as [m [u|]]; cbn [snd].
  - destruct Hscan as (Hu & Hdu & Hfin & Hmin).
    { split; [done |]. intros k Hk. by apply elem_of_nil in Hk. }
    cbn [fst snd] in *. destruct m as [du|]; [|done].
    split_and!; [done | done |]. exists du. split; [done |].
    intros k dk Hk Hdk. specialize (Hmin k (Fin dk) Hk Hdk). cbn in Hmin.
    by apply Z.ltb_ge.
  - destruct Hscan as [_ Hall].
    { split; [done |]. intros k Hk. by apply elem_of_nil in Hk. }
    done.
Qed.

(** *** [relax] *)

Lemma relax_q u v st : q (relax g u v st) = q st.
Proof.
  unfold relax.
  destruct (d st !! v) as [dv|]; [|done].
  destruct (d st !! u) as [du|]; [|done].
  by destruct (dist_ltb _ _).
Qed.

Lemma relax_all_q u (l : list NodeId) st :
  q (foldl (λ st v, relax g u v st) st l) = q st.
Proof.
  revert st. induction l as [|v l IH]; intros st; cbn [foldl]; [done |].
  by rewrite IH, relax_q.
Qed.

Lemma relax_all_inv (I : SpState → Prop) u (l : list NodeId) st :
  (∀ v st, v ∈ l → I st → I (relax g u v st)) →
  I st → I (foldl (λ st v, relax g u v st) st l).
Proof.
  revert st. induction l as [|v l IH]; intros st Hstep HI; cbn [foldl]; [done |].
  apply IH; [|apply Hstep; [left | done]].
  intros w s Hw. apply Hstep. by right.
Qed.

(** *** The loop of [dijkstra] *)

Lemma dijkstraLoop_S fuel st :
  dijkstraLoop (S fuel) g st
  = if priorityQueueEmpty st then Ret st
    else
      match extractMin st with
      | (None, st') => Ret st'
      | (Some u, st') =>
          dijkstraLoop fuel g
            (foldl (λ st v, relax g u v st) st' (adjacent g u))
      end.
Proof. done. Qed.

Lemma length_keys_delete {V} (o : JsObj.t V) k :
  k ∈ keys o → (length (keys (delete o k)) < length (keys o))%nat.
Proof.
  intros Hk. rewrite keys_delete. unfold keys in *.
  induction (o.*1) as [|x l IH]; [by apply elem_of_nil in Hk |].
  destruct (decide (x = k)) as [->|Hne].
  - rewrite filter_cons_False by tauto.
    pose proof (length_filter (λ x, x ≠ k) l). cbn. lia.
  - rewrite filter_cons_True by done. cbn.
    apply elem_of_cons in Hk as [?|Hk]; [congruence |].
    specialize (IH Hk). lia.
Qed.

(** The loop returns; what holds then is what holds at its two exits. *)
Lemma dijkstraLoop_exit (I F : SpState → Prop) fuel :
  (∀ st u st', I st → extractMin st = (Some u, st') →
               I (foldl (λ st v, relax g u v st) st' (adjacent g u))) →
  (∀ st st', I st → extractMin st = (None, st') → F st') →
  (∀ st, I st → keys (q st) = [] → F st) →
  ∀ st, I st → (length (keys (q st)) < fuel)%nat →
        ∃ st', dijkstraLoop fuel g st = Ret st' ∧ F st'.
Proof.
  intros Hsome Hnone Hempty.
  induction fuel as [|fuel IH]; intros st HI Hfuel; [lia |].
  rewrite dijkstraLoop_S. unfold priorityQueueEmpty.
  destruct (decide (length (keys (q st)) = 0)) as [Hq|Hq].
  - rewrite bool_decide_eq_true_2 by done. exists st.
    split; [done |]. by apply Hempty, nil_length_inv.
  - rewrite bool_decide_eq_false_2 by done.
    pose proof (extractMin_spec st) as Hspec.
    destruct (extractMin st) as [[u|] st'] eqn:Hmin.
    + destruct Hspec as (-> & Hu & _).
      apply IH; [by eapply Hsome |].
      rewrite relax_all_q. cbn [q].
      pose proof (length_keys_delete (q st) u Hu). lia.
    + exists st'. split; [done | by eapply Hnone].
Qed.

(** *** The loop of [path] *)

Lemma pathLoop_S fuel (pm : gmap NodeId NodeId) node
    (nodeList : list NodeId) (weight : Z) :
  pathLoop (S fuel) g pm node nodeList weight
  = match pm !! node with
    | Some pn =>
        if bool_decide (pn ≠ "") then
          pathLoop fuel g pm pn (nodeList ++ [node])
                   (weight + getEdgeWeight g pn node)
        else Ret (node, nodeList, weight)
    | None => Ret (node, nodeList, weight)
    end.
Proof. done. Qed.

Lemma pathLoop_no_throw fuel (pm : gmap NodeId NodeId) :
  ∀ node (nodeList : list NodeId) (weight : Z) e,
    pathLoop fuel g pm node nodeList weight ≠ Throw e.
Proof.
  induction fuel as [|fuel IH]; intros node nodeList weight e; [done |].
  rewrite pathLoop_S. destruct (pm !! node) as [pn|]; [|done].
  destruct (bool_decide (pn ≠ "")); [apply IH | done].
Qed.

End sp_basic.

(** ** Shortest path: the three errors *)

Section sp_errors.
Import JsObj JsObjFacts.
Context (g : Graph) (source destination : NodeId).
Implicit Types (st : SpState) (u v : NodeId).

Lemma shortestPath_missing_source :
  source ∉ nodes g →
  shortestPath g source destination
  = Throw (Error "Source node is not in the graph").
Proof.
  intros Hs. unfold shortestPath, dijkstra.
  by rewrite initializeSingleSource_spec, decide_False.
Qed.

Lemma shortestPath_missing_destination :
  source ∈ nodes g → destination ∉ nodes g →
  shortestPath g source destination
  = Throw (Error "Destination node is not in the graph").
Proof.
  intros Hs Ht. unfold shortestPath, dijkstra.
  by rewrite initializeSingleSource_spec, decide_True, decide_False.
Qed.

(** With both endpoints in the graph the loop of [dijkstra] returns, and
    [shortestPath] is [path] on the state it returns. *)
Lemma shortestPath_run (I F : SpState → Prop) :
  source ∈ nodes g → destination ∈ nodes g →
  (∀ st u st', I st → extractMin st = (Some u, st') →
               I (foldl (λ st v, relax g u v st) st' (adjacent g u))) →
  (∀ st st', I st → extractMin st = (None, st') → F st') →
  (∀ st, I st → keys (q st) = [] → F st) →
  I (dijkstraStart g source) →
  ∃ st', F st' ∧
         shortestPath g source destination = path g source destination st'.
Proof.
  intros Hs Ht Hsome Hnone Hempty Hstart. unfold shortestPath, dijkstra.
  rewrite initializeSingleSource_spec, !decide_True by done.
  cbn [mbind outcome_bind]. fold (dijkstraStart g source).
  destruct (dijkstraLoop_exit g I F (S (length (nodes g))) Hsome Hnone Hempty
              (dijkstraStart g source) Hstart) as (st' & Hrun & HF).
  - unfold dijkstraStart, initializePriorityQueue. cbn [q].
    pose proof (keys_initializePriorityQueue (nodes g) JsObj.empty) as H.
    cbn in H. lia.
  - exists st'. by rewrite Hrun.
Qed.

Lemma reachInv_start : reachInv g source (dijkstraStart g source).
Proof.
  split; cbn [dijkstraStart initializePriorityQueue d p].
  - intros v z. rewrite lookup_insert.
    destruct (decide (source = v)) as [->|Hne]; [intros _; apply rtc_refl |].
    rewrite init_d_lookup. by destruct (decide (v ∈ nodes g)).
  - intros v u. by rewrite lookup_empty.
Qed.

Lemma reachInv_relax u v st :
  edge g u v → reachInv g source st → reachInv g source (relax g u v st).
Proof.
  intros Huv [Hd Hp]. unfold relax.
  destruct (d st !! v) as [dv|] eqn:Hv; [|done].
  destruct (d st !! u) as [du|] eqn:Hu; [|done].
  destruct (dist_ltb _ dv) eqn:Hlt; [|done].
  destruct du as [zu|]; [|done].
  assert (reaches g source v) as Hreach.
  { eapply rtc_r; [by eapply Hd | done]. }
  split; cbn [d p].
  - intros x z. rewrite lookup_insert.
    destruct (decide (v = x)) as [->|]; [done | apply Hd].
  - intros x y. rewrite lookup_insert.
    destruct (decide (v = x)) as [->|]; [done | apply Hp].
Qed.

Lemma reachInv_round st u st' :
  reachInv g source st → extractMin st = (Some u, st') →
  reachInv g source (foldl (λ st v, relax g u v st) st' (adjacent g u)).
Proof.
  intros Hinv Hmin. pose proof (extractMin_spec st) as Hspec.
  rewrite Hmin in Hspec. destruct Hspec as (-> & _).
  apply relax_all_inv; [|done]. intros v s Hv. by apply reachInv_relax.
Qed.

Lemma reachInv_done st st' :
  reachInv g source st → extractMin st = (None, st') → reachInv g source st'.
Proof.
  intros Hinv Hmin. pose proof (extractMin_spec st) as Hspec.
  rewrite Hmin in Hspec. by destruct Hspec as (-> & _).
Qed.

Lemma shortestPath_no_path :
  source ∈ nodes g → destination ∈ nodes g →
  ¬ reaches g source destination →
  shortestPath g source destination = Throw (Error "No path found").
Proof.
  intros Hs Ht Hunreach.
  destruct (shortestPath_run (reachInv g source) (reachInv g source) Hs Ht)
    as (st' & [_ Hp] & ->);
    [apply reachInv_round | apply reachInv_done | done |
     apply reachInv_start |].
  unfold path. rewrite pathLoop_S.
  destruct (p st' !! destination) as [u|] eqn:Hu.
  { destruct Hunreach. by eapply Hp. }
  cbn [mbind outcome_bind]. rewrite bool_decide_eq_true_2; [done |].
  intros ->. apply Hunreach, rtc_refl.
Qed.

(** With both endpoints in the graph, neither missing-endpoint error
    comes out. *)
Lemma shortestPath_present_error e :
  source ∈ nodes g → destination ∈ nodes g →
  shortestPath g source destination = Throw e → e = Error "No path found".
Proof.
  intros Hs Ht.
  destruct (shortestPath_run (λ _, True) (λ _, True) Hs Ht)
    as (st' & _ & ->); [done.. |].
  unfold path.
  pose proof (pathLoop_no_throw g (S (length (nodes g))) (p st')
                destination [] 0) as Hno.
  destruct (pathLoop _ _ _ _ _ _) as [[[node nodeList] weight]|e'|];
    cbn [mbind outcome_bind]; [|by destruct (Hno e') | done].
  destruct (bool_decide (node ≠ source)); [|done]. congruence.
Qed.

End sp_errors.

(** C4.  [shortestPath(source, destination)] throws the source error
    exactly when [source] is not in [nodes()]; otherwise it throws the
    destination error exactly when [destination] is not in [nodes()];
    both come from [initializeSingleSource], which runs before the loop
    that relaxes edges.  With both endpoints in [nodes()] and no path from
    [source] to [destination] it throws the no-path error.  An outcome is
    either a result or an error, never both. *)
Theorem shortestPath_errors (g : Graph) (source destination : NodeId) :
  (shortestPath g source destination
   = Throw (Error "Source node is not in the graph")
   ↔ source ∉ nodes g) ∧
  (source ∈ nodes g →
   (shortestPath g source destination
    = Throw (Error "Destination node is not in the graph")
    ↔ destination ∉ nodes g)) ∧
  (source ∈ nodes g → destination ∈ nodes g →
   ¬ reaches g source destination →
   shortestPath g source destination = Throw (Error "No path found")) ∧
  (source ∉ nodes g →
   initializeSingleSource g source destination (mkSp ∅ ∅ JsObj.empty)
   = Throw (Error "Source node is not in the graph")) ∧
  (source ∈ nodes g → destination ∉ nodes g →
   initializeSingleSource g source destination (mkSp ∅ ∅ JsObj.empty)
   = Throw (Error "Destination node is not in the graph")).
Proof.
  split_and!.
  - split; [|apply shortestPath_missing_source].
    intros Hthrow Hs.
    destruct (decide (destination ∈ nodes g)) as [Ht|Ht].
    + by apply shortestPath_present_error in Hthrow.
    + by rewrite shortestPath_missing_destination in Hthrow.
  - intros Hs. split; [|by apply shortestPath_missing_destination].
    intros Hthrow Ht. by apply shortestPath_present_error in Hthrow.
  - apply shortestPath_no_path.
  - intros Hs. by rewrite initializeSingleSource_spec, decide_False.
  - intros Hs Ht.
    by rewrite initializeSingleSource_spec, decide_True, decide_False.
Qed.

Lemma shortestPath_errors_witness :
  ("a" ∈ nodes apartGraph ∧ "f" ∈ nodes apartGraph ∧
   ¬ reaches apartGraph "a" "f") ∧
  shortestPath apartGraph "a" "f" = Throw (Error "No path found").
Proof.
  assert ("a" ∈ nodes apartGraph) as Ha by (by vm_compute; left).
  assert ("f" ∈ nodes apartGraph) as Hf by (by vm_compute; do 2 right; left).
  assert (¬ reaches apartGraph "a" "f") as Hno.
  { intros H. by apply indegree_0_reaches in H; [|vm_compute]. }
  split; [by split_and! |].
  exact (proj1 (proj2 (proj2 (shortestPath_errors apartGraph "a" "f")))
           Ha Hf Hno).
Defined.

(** ** Shortest path: the invariant of [dijkstra] *)

Section dijkstra_inv.
Import JsObj JsObjFacts.
Context (g : Graph) (source : NodeId).
Context (Hweights : nonnegativeWeights g).
Implicit Types (st : SpState) (u v x : NodeId) (order : list NodeId).

Lemma foldl_prefix_inv {A S} (f : S → A → S) (I : list A → S → Prop)
    (l : list A) :
  (∀ pre a s, a ∈ l → I pre s → I (pre ++ [a]) (f s a)) →
  ∀ pre s, I pre s → I (pre ++ l) (foldl f s l).
Proof.
  induction l as [|a l IH]; intros Hstep pre s HI; cbn [foldl].
  - by rewrite app_nil_r.
  - rewrite (cons_middle a), app_assoc. apply IH.
    + intros pre' b s' Hb. apply Hstep. by right.
    + apply Hstep; [left | done].
Qed.

Lemma start_d_lookup v :
  d (dijkstraStart g source) !! v
  = if decide (source = v) then Some (Fin 0)
    else if decide (v ∈ nodes g) then Some Inf else None.
Proof.
  cbn [dijkstraStart initializePriorityQueue d].
  rewrite lookup_insert. destruct (decide (source = v)); [done |].
  rewrite init_d_lookup. by destruct (decide (v ∈ nodes g)).
Qed.

Lemma dijkstraInv_start :
  source ∈ nodes g →
  dijkstraInv g source [] (λ u _, u ∈ []) (dijkstraStart g source).
Proof.
  intros Hs.
  assert (∀ v z, d (dijkstraStart g source) !! v = Some (Fin z) →
                 v = source ∧ z = 0%Z) as Hfin.
  { intros v z. rewrite start_d_lookup.
    destruct (decide (source = v)); [by intros [= <-] |].
    by destruct (decide (v ∈ nodes g)). }
  split.
  - rewrite start_d_lookup. by rewrite decide_True.
  - intros v z [_ ->]%Hfin. done.
  - intros v Hv. rewrite start_d_lookup.
    destruct (decide (source = v)); [by eexists |].
    rewrite decide_True by done. by eexists.
  - intros v dv. rewrite start_d_lookup.
    destruct (decide (source = v)) as [<-|]; [done |].
    by destruct (decide (v ∈ nodes g)).
  - constructor.
  - intros u Hu. by apply elem_of_nil in Hu.
  - intros v Hv. right.
    cbn [dijkstraStart initializePriorityQueue q].
    apply keys_mark_all. by right.
  - intros u Hu. by apply elem_of_nil in Hu.
  - intros u du v Hu. by apply elem_of_nil in Hu.
  - intros u du x dx Hu. by apply elem_of_nil in Hu.
  - intros i j u1 u2 d1 d2 Hi. by rewrite lookup_nil in Hi.
  - intros v u. cbn [dijkstraStart initializePriorityQueue p].
    by rewrite lookup_empty.
  - intros v z [-> _]%Hfin. done.
Qed.

Lemma dijkstraInv_weaken order (R R' : NodeId → NodeId → Prop) st :
  (∀ u v, v ∈ adjacent g u → R' u v → R u v) →
  dijkstraInv g source order R st → dijkstraInv g source order R' st.
Proof.
  intros HR [].
  split; try done.
  intros u du v Hrel Hu Hv. eauto.
Qed.

Lemma elem_of_keys_delete {V} (o : JsObj.t V) k x :
  x ∈ keys (delete o k) ↔ x ≠ k ∧ x ∈ keys o.
Proof. by rewrite keys_delete, list_elem_of_filter. Qed.

(** Taking the minimum out of the queue. *)
Lemma dijkstraInv_extract order st u st' :
  dijkstraInv g source order (λ u' _, u' ∈ order) st →
  extractMin st = (Some u, st') →
  ∃ du,
    d st' !! u = Some (Fin du) ∧
    dijkstraInv g source (order ++ [u])
                (λ u' v', u' ∈ order ∨ (u' = u ∧ v' ∈ [])) st'.
Proof.
  intros Hinv Hmin. pose proof (extractMin_spec st) as Hspec.
  rewrite Hmin in Hspec. destruct Hspec as (-> & Hu & du & Hdu & Hleast).
  exists du. split; [done |].
  destruct Hinv as [Hsrc Hnn Htot Hdom Hnd Hfin Hall Hdis Hrel Hmn Hmono
                    Hpred Hhas].
  assert (u ∉ order) as Hfresh by (intros ?; by eapply Hdis).
  split; cbn [d p q].
  - done.
  - done.
  - done.
  - done.
  - apply NoDup_app. split_and!; [done | | apply NoDup_singleton].
    intros x Hx ->%list_elem_of_singleton. done.
  - intros x [Hx| ->%list_elem_of_singleton]%elem_of_app; eauto.
  - intros v Hv. rewrite elem_of_app, list_elem_of_singleton.
    rewrite elem_of_keys_delete.
    destruct (decide (v = u)) as [->|Hne]; [by left; right |].
    destruct (Hall v Hv); [by left; left | by right].
  - intros x [Hx| ->%list_elem_of_singleton]%elem_of_app;
      rewrite elem_of_keys_delete; [|tauto].
    intros [_ ?]. by eapply Hdis.
  - intros x dx v [Hx|[_ Hv]]; [by apply Hrel |]. by apply elem_of_nil in Hv.
  - intros x dx y dy [Hx| ->%list_elem_of_singleton]%elem_of_app Hdx Hy Hdy.
    + eapply Hmn; [done | done | | done].
      intros ?. apply Hy, elem_of_app. by left.
    + assert (dx = du) as -> by congruence.
      apply (Hleast y); [|done].
      destruct (Hall y) as [?|?]; [by eapply Hdom | | done].
      destruct Hy. apply elem_of_app. by left.
  - intros i j u1 u2 d1 d2 Hi Hj Hij Hd1 Hd2.
    apply lookup_app_Some in Hj as [Hj|[Hlen Hj]].
    + apply lookup_app_Some in Hi as [Hi|[Hlen' _]].
      * by apply (Hmono i j u1 u2).
      * apply lookup_lt_Some in Hj. lia.
    + apply list_lookup_singleton_Some in Hj as [_ <-].
      apply lookup_app_Some in Hi as [Hi|[_ Hi]].
      * assert (d2 = du) as -> by congruence.
        eapply (Hmn u1 d1 u du); try done.
        by eapply list_elem_of_lookup_2.
      * apply list_lookup_singleton_Some in Hi as [_ <-].
        assert (d1 = d2) by congruence. lia.
  - intros v x Hvx. destruct (Hpred v x Hvx) as (Hv & He & Hd & i & Hi & Hlt).
    split_and!; try done. exists i. split.
    + apply lookup_app_Some. by left.
    + intros j [Hj|[Hlen Hj]]%lookup_app_Some; [by apply Hlt |].
      apply lookup_lt_Some in Hi. lia.
  - done.
Qed.

Lemma relax_eq u v st du dv :
  d st !! u = Some (Fin du) → d st !! v = Some dv →
  relax g u v st
  = if dist_ltb (Fin (du + getEdgeWeight g u v)) dv
    then mkSp (<[v := Fin (du + getEdgeWeight g u v)]> (d st))
              (<[v := u]> (p st)) (q st)
    else st.
Proof. intros Hu Hv. unfold relax. by rewrite Hv, Hu. Qed.

(** Relaxing one more edge out of the node [u] just taken out. *)
Lemma dijkstraInv_relax order u du (pre : list NodeId) v st :
  dijkstraInv g source (order ++ [u])
              (λ u' v', u' ∈ order ∨ (u' = u ∧ v' ∈ pre)) st →
  d st !! u = Some (Fin du) → v ∈ adjacent g u →
  dijkstraInv g source (order ++ [u])
              (λ u' v', u' ∈ order ∨ (u' = u ∧ v' ∈ pre ++ [v]))
              (relax g u v st) ∧
  d (relax g u v st) !! u = Some (Fin du).
Proof.
  intros Hinv Hdu Hv.
  destruct Hinv as [Hsrc Hnn Htot Hdom Hnd Hfin Hall Hdis Hrel Hmn Hmono
                    Hpred Hhas].
  set (w := getEdgeWeight g u v).
  assert (0 ≤ w)%Z as Hw by (by apply Hweights).
  assert (0 ≤ du)%Z as Hdu0 by (by eapply Hnn).
  destruct (Htot v) as [dv Hdv]; [by eapply nodes_target |].
  rewrite (relax_eq u v st du dv Hdu Hdv). fold w.
  destruct (dist_ltb (Fin (du + w)) dv) eqn:Hlt; cycle 1.
  { split; [|done]. split; try done.
    intros x dx y [Hx|[-> Hy]] Hdx Hyadj.
    - apply Hrel; [by left | done | done].
    - apply elem_of_app in Hy as [Hy| ->%list_elem_of_singleton].
      + apply Hrel; [by right | done | done].
      + assert (dx = du) as -> by congruence.
        destruct dv as [z|]; [|done]. exists z. split; [done |].
        cbn in Hlt. apply Z.ltb_ge in Hlt. by fold w. }
  assert ((order ++ [u]) !! length order = Some u) as Hlast.
  { rewrite lookup_app_r by done. by rewrite Nat.sub_diag. }
  assert (∀ x dx, x ∈ order ++ [u] → d st !! x = Some (Fin dx) →
                  (dx ≤ du)%Z) as Hle_u.
  { intros x dx [i Hi]%list_elem_of_lookup Hdx.
    apply (Hmono i (length order) x u dx du); try done.
    apply lookup_lt_Some in Hi. rewrite length_app in Hi. cbn in Hi. lia. }
  assert (v ∉ order ++ [u]) as Hfresh.
  { intros Hin. destruct (Hfin v Hin) as [z Hz].
    assert (dv = Fin z) as -> by congruence.
    cbn in Hlt. apply Z.ltb_lt in Hlt.
    pose proof (Hle_u v z Hin Hz). lia. }
  assert (v ≠ u) as Hvu.
  { intros ->. apply Hfresh, elem_of_app. right. left. }
  assert (v ≠ source) as Hvs.
  { intros ->. rewrite Hsrc in Hdv. injection Hdv as <-.
    cbn in Hlt. apply Z.ltb_lt in Hlt. lia. }
  split; [|cbn [d]; by rewrite lookup_insert_ne].
  split; cbn [d p q].
  - by rewrite lookup_insert_ne.
  - intros x z. rewrite lookup_insert.
    destruct (decide (v = x)); [intros [= <-]; lia | apply Hnn].
  - intros x Hx. rewrite lookup_insert.
    destruct (decide (v = x)); [by eexists | by apply Htot].
  - intros x dx. rewrite lookup_insert.
    destruct (decide (v = x)) as [<-|]; [|apply Hdom].
    intros _. by eapply nodes_target.
  - done.
  - intros x Hx. rewrite lookup_insert_ne; [by apply Hfin |].
    by intros ->.
  - done.
  - done.
  - intros x dx y Hrel' Hdx Hy.
    assert (x ∈ order ++ [u]) as Hx_in.
    { apply elem_of_app. destruct Hrel' as [?|[-> _]]; [by left |].
      right. left. }
    assert (v ≠ x) as Hvx by (by intros ->).
    rewrite lookup_insert_ne in Hdx by done.
    rewrite lookup_insert. destruct (decide (v = y)) as [<-|Hne].
    + exists (du + w)%Z. split; [done |].
      destruct Hrel' as [Hx|[-> Hy']].
      * destruct (Hrel x dx v) as (dv0 & Hdv0 & Hle); [by left | done.. |].
        assert (dv = Fin dv0) as -> by congruence.
        cbn in Hlt. apply Z.ltb_lt in Hlt. lia.
      * assert (dx = du) as -> by congruence. fold w. lia.
    + destruct Hrel' as [Hx|[-> Hy']].
      * apply Hrel; [by left | done | done].
      * apply elem_of_app in Hy' as [Hy'| ->%list_elem_of_singleton];
          [|done].
        apply Hrel; [by right | done | done].
  - intros x dx y dy Hx Hdx Hy.
    assert (v ≠ x) as Hvx by (by intros ->).
    rewrite lookup_insert_ne in Hdx by done.
    rewrite lookup_insert. destruct (decide (v = y)) as [<-|Hne].
    + intros [= <-]. pose proof (Hle_u x dx Hx Hdx). lia.
    + by eapply Hmn.
  - intros i j u1 u2 d1 d2 Hi Hj Hij.
    rewrite !lookup_insert_ne; [by apply (Hmono i j) | |].
    + intros ->. apply Hfresh. by eapply list_elem_of_lookup_2.
    + intros ->. apply Hfresh. by eapply list_elem_of_lookup_2.
  - intros y x. rewrite (lookup_insert (p st)).
    destruct (decide (v = y)) as [<-|Hne].
    + intros [= <-]. split_and!; [done | done | |].
      * exists du. by rewrite lookup_insert_ne, lookup_insert_eq.
      * exists (length order). split; [done |].
        intros j Hj. destruct Hfresh. by eapply list_elem_of_lookup_2.
    + intros Hyx.
      destruct (Hpred y x Hyx) as (? & ? & (dx & Hdx & Hdy) & i & Hi & Hlt').
      split_and!; [done | done | |].
      * exists dx. rewrite !lookup_insert_ne; [done | done |].
        intros ->. apply Hfresh. by eapply list_elem_of_lookup_2.
      * eauto.
  - intros y z. rewrite !lookup_insert.
    destruct (decide (v = y)); [by eexists | apply Hhas].
Qed.

(** One round of the loop. *)
Lemma dijkstraInv_round st u st' :
  (∃ order, dijkstraInv g source order (λ u' _, u' ∈ order) st) →
  extractMin st = (Some u, st') →
  ∃ order,
    dijkstraInv g source order (λ u' _, u' ∈ order)
                (foldl (λ st v, relax g u v st) st' (adjacent g u)).
Proof.
  intros [order Hinv] Hmin.
  destruct (dijkstraInv_extract _ _ _ _ Hinv Hmin) as (du & Hdu & Hinv').
  exists (order ++ [u]).
  pose proof (foldl_prefix_inv (λ st v, relax g u v st)
                (λ pre s,
                   dijkstraInv g source (order ++ [u])
                     (λ u' v', u' ∈ order ∨ (u' = u ∧ v' ∈ pre)) s ∧
                   d s !! u = Some (Fin du))
                (adjacent g u)) as Hfold.
  destruct (Hfold) with (pre := @nil NodeId) (s := st') as [Hend _].
  - intros pre v s Hv [Hs Hsu]. by apply dijkstraInv_relax.
  - done.
  - eapply dijkstraInv_weaken; [|exact Hend].
    intros x y Hy [Hx| ->%list_elem_of_singleton]%elem_of_app;
      [by left | by right].
Qed.

(** The two exits of the loop. *)
Lemma dijkstraInv_final order st (q' : JsObj.t bool) :
  dijkstraInv g source order (λ u _, u ∈ order) st →
  (∀ k, k ∈ keys (q st) → d st !! k = None ∨ d st !! k = Some Inf) →
  dijkstraFinal g source order (mkSp (d st) (p st) q').
Proof.
  intros [Hsrc Hnn Htot Hdom Hnd Hfin Hall Hdis Hrel Hmn Hmono Hpred Hhas]
    Hrest.
  assert (∀ v z, d st !! v = Some (Fin z) → v ∈ order) as Hsettled.
  { intros v z Hv. destruct (Hall v) as [?|Hq]; [by eapply Hdom | done |].
    destruct (Hrest v Hq); congruence. }
  split; cbn [d p]; try done.
  - intros u [du Hu]%Hfin. by eapply Hdom.
  - intros u du v Hu Hv. eapply Hrel; [by eapply Hsettled | done | done].
Qed.

Lemma dijkstraInv_exit_none st st' :
  (∃ order, dijkstraInv g source order (λ u' _, u' ∈ order) st) →
  extractMin st = (None, st') → dijkstraDone g source st'.
Proof.
  intros [order Hinv] Hmin. pose proof (extractMin_spec st) as Hspec.
  rewrite Hmin in Hspec. destruct Hspec as [-> Hrest].
  exists order. by apply dijkstraInv_final.
Qed.

Lemma dijkstraInv_exit_empty st :
  (∃ order, dijkstraInv g source order (λ u' _, u' ∈ order) st) →
  keys (q st) = [] → dijkstraDone g source st.
Proof.
  intros [order Hinv] Hq. exists order. destruct st as [ds ps qs].
  apply (dijkstraInv_final order (mkSp ds ps qs) qs Hinv).
  intros k Hk. cbn [q] in *. rewrite Hq in Hk. by apply elem_of_nil in Hk.
Qed.

(** With both endpoints in the graph, [shortestPath] is [path] on a state
    in which the loop of [dijkstra] is done. *)
Lemma shortestPath_dijkstraDone destination :
  source ∈ nodes g → destination ∈ nodes g →
  ∃ st, dijkstraDone g source st ∧
        shortestPath g source destination = path g source destination st.
Proof.
  intros Hs Ht.
  apply (shortestPath_run g source destination
           (λ st, ∃ order, dijkstraInv g source order (λ u' _, u' ∈ order) st));
    try done.
  - apply dijkstraInv_round.
  - apply dijkstraInv_exit_none.
  - apply dijkstraInv_exit_empty.
  - exists []. by apply dijkstraInv_start.
Qed.

End dijkstra_inv.

(** ** Shortest path: the result of [path] *)

Section paths.
Context (g : Graph).
Implicit Types (l : list NodeId) (u v : NodeId).

Lemma isPath_snoc l u v :
  isPath g l → last l = Some u → edge g u v → isPath g (l ++ [v]).
Proof.
  induction l as [|a [|b l] IH]; intros Hp Hl He; [done | |].
  - cbn in Hl. injection Hl as ->. by cbn.
  - destruct Hp as [Hab Hp]. split; [done |]. by apply IH.
Qed.

Lemma pathWeight_snoc l u v :
  last l = Some u →
  pathWeight g (l ++ [v]) = (pathWeight g l + getEdgeWeight g u v)%Z.
Proof.
  induction l as [|a [|b l] IH]; intros Hl; [done | |].
  - cbn in Hl. injection Hl as ->. cbn. lia.
  - change (pathWeight g ((a :: b :: l) ++ [v]))
      with (getEdgeWeight g a b + pathWeight g ((b :: l) ++ [v]))%Z.
    rewrite IH by done.
    change (pathWeight g (a :: b :: l))
      with (getEdgeWeight g a b + pathWeight g (b :: l))%Z. lia.
Qed.

(** A path of edges is a node sequence from its start to its end. *)
Lemma reaches_path u v : reaches g u v → ∃ l, pathFromTo g u v l.
Proof.
  intros Huv. revert v Huv. apply rtc_ind_r; [by exists [u] |].
  intros x v _ Hxv (l & Hh & Hl & Hp).
  - exists (l ++ [v]). split_and!.
    + rewrite head_snoc. by rewrite Hh.
    + apply last_snoc.
    + by eapply isPath_snoc.
Qed.

End paths.

Section dijkstra_result.
Import JsObj JsObjFacts.
Context (g : Graph) (source : NodeId) (order : list NodeId) (st : SpState).
Context (Hfinal : dijkstraFinal g source order st).
Implicit Types (l : list NodeId) (u v : NodeId).

(** No path is lighter than the distance found. *)
Lemma dijkstra_lower_bound l :
  ∀ u du v,
    d st !! u = Some (Fin du) → head l = Some u → last l = Some v →
    isPath g l →
    ∃ dv, d st !! v = Some (Fin dv) ∧ (dv ≤ du + pathWeight g l)%Z.
Proof.
  induction l as [|a [|b l] IH]; intros u du v Hu Hh Hl Hp; [done | |].
  - cbn in Hh, Hl. simplify_eq. exists du. split; [done | cbn; lia].
  - cbn in Hh. injection Hh as ->. destruct Hp as [Hub Hp].
    destruct (fin_relaxed _ _ _ _ Hfinal u du b Hu Hub) as (db & Hb & Hle).
    destruct (IH b db v Hb) as (dv & Hv & Hle'); [done.. |].
    exists dv. split; [done |].
    change (pathWeight g (u :: b :: l))
      with (getEdgeWeight g u b + pathWeight g (b :: l))%Z. lia.
Qed.

Lemma order_length : (length order ≤ length (nodes g))%nat.
Proof.
  apply submseteq_length, NoDup_submseteq;
    [apply (fin_NoDup _ _ _ _ Hfinal) | apply (fin_nodes _ _ _ _ Hfinal)].
Qed.

Context (Hnames : "" ∉ nodes g).

(** Walking the predecessors from a settled node reaches the source, and
    what the walk collects is a path of the weight found. *)
Lemma pathLoop_chain j :
  ∀ v dv fuel (nodeList : list NodeId) (weight : Z),
    order !! j = Some v → d st !! v = Some (Fin dv) → (j < fuel)%nat →
    ∃ chain,
      pathLoop fuel g (p st) v nodeList weight
      = Ret (source, nodeList ++ chain, (weight + dv)%Z) ∧
      pathFromTo g source v (reverse (chain ++ [source])) ∧
      pathWeight g (reverse (chain ++ [source])) = dv.
Proof.
  induction j as [j IH] using lt_wf_ind.
  intros v dv fuel nodeList weight Hj Hv Hfuel.
  destruct fuel as [|fuel]; [lia |]. rewrite pathLoop_S.
  destruct (decide (v = source)) as [->|Hne].
  - destruct (p st !! source) as [u|] eqn:Hp.
    { by destruct (fin_pred _ _ _ _ Hfinal source u Hp) as [? _]. }
    rewrite (fin_source _ _ _ _ Hfinal) in Hv. injection Hv as <-.
    exists []. rewrite app_nil_r, Z.add_0_r. by split_and!.
  - destruct (fin_has_pred _ _ _ _ Hfinal v dv Hv Hne) as [u Hp].
    rewrite Hp.
    destruct (fin_pred _ _ _ _ Hfinal v u Hp)
      as (_ & Hedge & (du & Hu & Hv') & i & Hi & Hlt).
    assert (dv = du + getEdgeWeight g u v)%Z as -> by congruence.
    assert (u ≠ "") as Hu_name.
    { intros ->. apply Hnames, (fin_nodes _ _ _ _ Hfinal).
      by eapply list_elem_of_lookup_2. }
    rewrite bool_decide_eq_true_2 by done.
    specialize (Hlt j Hj).
    destruct (IH i Hlt u du fuel (nodeList ++ [v])
                 (weight + getEdgeWeight g u v)%Z Hi Hu)
      as (chain & Hrun & (Hh & Hl & Hpath) & Hweight); [lia |].
    exists (v :: chain). rewrite Hrun. split_and!.
    + f_equal. f_equal; [by rewrite <- app_assoc | lia].
    + cbn [app]. rewrite reverse_cons. split_and!.
      * rewrite head_app. by rewrite Hh.
      * apply last_snoc.
      * by eapply isPath_snoc.
    + cbn [app]. rewrite reverse_cons.
      rewrite (pathWeight_snoc g _ u v Hl). lia.
Qed.

(** [path] on the final state, for a destination with a path to it. *)
Lemma path_result destination l :
  pathFromTo g source destination l →
  ∃ r,
    path g source destination st = Ret r ∧
    pathFromTo g source destination (pathNodes r) ∧
    weight r = pathWeight g (pathNodes r) ∧
    ∀ l', pathFromTo g source destination l' → (weight r ≤ pathWeight g l')%Z.
Proof.
  intros (Hh & Hl & Hp).
  destruct (dijkstra_lower_bound l source 0 destination
              (fin_source _ _ _ _ Hfinal) Hh Hl Hp) as (dt & Hdt & _).
  pose proof (fin_settled _ _ _ _ Hfinal destination dt Hdt) as Hin.
  apply list_elem_of_lookup in Hin as [j Hj].
  destruct (pathLoop_chain j destination dt (S (length (nodes g))) [] 0 Hj Hdt)
    as (chain & Hrun & Hpath & Hweight).
  { apply lookup_lt_Some in Hj. pose proof order_length. lia. }
  unfold path. rewrite Hrun. cbn [mbind outcome_bind].
  rewrite bool_decide_eq_false_2 by (by intros []).
  eexists. split; [done |]. cbn [pathNodes weight app].
  split_and!; [done | by rewrite Z.add_0_l |].
  intros l' (Hh' & Hl' & Hp').
  destruct (dijkstra_lower_bound l' source 0 destination
              (fin_source _ _ _ _ Hfinal) Hh' Hl' Hp') as (dt' & Hdt' & Hle).
  assert (dt' = dt) as -> by congruence. lia.
Qed.

End dijkstra_result.

(** Away from the empty name the shortest path is found.  In a graph
    with nonnegative edge weights in which no node is named by the empty
    string, with [source] and [destination] in [nodes()] and a path from
    the one to the other, [shortestPath(source, destination)] returns a
    node sequence that starts at [source], ends at [destination] and
    follows edges; its weight tag is the sum of the edge weights along it,
    and no path from [source] to [destination] weighs less. *)
Theorem shortestPath_correct (g : Graph) (source destination : NodeId) :
  nonnegativeWeights g → "" ∉ nodes g →
  source ∈ nodes g → destination ∈ nodes g →
  reaches g source destination →
  ∃ r,
    shortestPath g source destination = Ret r ∧
    pathFromTo g source destination (pathNodes r) ∧
    weight r = pathWeight g (pathNodes r) ∧
    ∀ l, pathFromTo g source destination l → (weight r ≤ pathWeight g l)%Z.
Proof.
  intros Hweights Hnames Hs Ht Hreach.
  destruct (shortestPath_dijkstraDone g source Hweights destination Hs Ht)
    as (st & [order Hfinal] & ->).
  destruct (reaches_path g _ _ Hreach) as [l Hl].
  by eapply path_result.
Qed.

(** Nonnegative weights need only be checked at the keys of [edges]. *)
Lemma nonnegativeWeights_keys (g : Graph) :
  Forall (λ u, Forall (λ v, (0 ≤ getEdgeWeight g u v)%Z) (adjacent g u))
         (JsObj.keys (edges g)) →
  nonnegativeWeights g.
Proof.
  intros Hall u v Huv.
  pose proof (adjacent_key _ _ _ Huv) as Hu.
  pose proof (proj1 (Forall_forall _ _) Hall u Hu) as Hu'.
  by apply (proj1 (Forall_forall _ _) Hu').
Qed.

Lemma shortestPath_correct_cormen :
  shortestPath cormen "s" "z" = Ret (mkPath ["s"; "y"; "z"] 7) ∧
  ∀ l, pathFromTo cormen "s" "z" l → (7 ≤ pathWeight cormen l)%Z.
Proof.
  assert (shortestPath cormen "s" "z" = Ret (mkPath ["s"; "y"; "z"] 7))
    as Hrun by (vm_compute; reflexivity).
  split; [exact Hrun |].
  destruct (shortestPath_correct cormen "s" "z") as (r & Hr & _ & _ & Hmin).
  - apply nonnegativeWeights_keys. by_evaluation.
  - by_evaluation.
  - by_evaluation.
  - by_evaluation.
  - apply rtc_l with "y"; [by apply hasEdge_true; vm_compute |].
    apply rtc_once. by apply hasEdge_true; vm_compute.
  - rewrite Hrun in Hr. injection Hr as <-. exact Hmin.
Qed.

(** ** The fuel is enough, and more of it changes nothing *)

Section fuel.
Import JsObj JsObjFacts.
Context (g : Graph).

Lemma forEachM_more_fuel {A S} (f f' : A → S → outcome S) (xs : list A) s :
  (∀ x s, f x s ≠ OutOfFuel → f' x s = f x s) →
  forEachM f xs s ≠ OutOfFuel → forEachM f' xs s = forEachM f xs s.
Proof.
  intros Hf. revert s. induction xs as [|x xs IH]; intros s Hrun; [done |].
  cbn in *. destruct (f x s) as [s1| |] eqn:Hx; cbn in Hrun; [| |done].
  - rewrite Hf, Hx by congruence. cbn. by apply IH.
  - rewrite Hf, Hx by congruence. done.
Qed.

Lemma DFSVisit_more_fuel (options : DfsOptions) fuel :
  ∀ fuel' node from st,
    (fuel ≤ fuel')%nat →
    DFSVisit fuel g options node from st ≠ OutOfFuel →
    DFSVisit fuel' g options node from st
    = DFSVisit fuel g options node from st.
Proof.
  induction fuel as [|fuel IH]; intros fuel' node from st Hle Hrun; [done |].
  destruct fuel' as [|fuel']; [lia |].
  rewrite !DFSVisit_S in *.
  destruct (truthy (visiting st !! node) && truthy (errorOnCycle options));
    [done |].
  destruct (truthy (visiting st !! node) && truthy (collectCycles options));
    [done |].
  destruct (negb (truthy (visited st !! node))); [|done].
  rewrite (forEachM_more_fuel
             (λ adjacent, DFSVisit fuel g options adjacent (Some node))
             (λ adjacent, DFSVisit fuel' g options adjacent (Some node)));
    [done | |].
  - intros a s Ha. apply IH; [lia | done].
  - intros Hout. by rewrite Hout in Hrun.
Qed.


(** [lowestCommonAncestors] always returns. *)
Lemma lowestCommonAncestors_returns (node1 node2 : NodeId) :
  ∃ l, lowestCommonAncestors g node1 node2 = Ret l.
Proof.
  unfold lowestCommonAncestors.
  destruct (CA1Visit_total g node2 (dfsFuel g) node1 (mkLca ∅ [] []))
    as (b & st1 & -> & _); [apply unmarked_dfsFuel |].
  cbn [mbind outcome_bind]. destruct b; [|by eexists].
  destruct (CA2Visit_total g (dfsFuel g) node2
              (mkLca ∅ (node1Ancestors st1) (lcas st1)))
    as (st2 & -> & _); [apply unmarked_dfsFuel |].
  by eexists.
Qed.

Lemma pathLoop_more_fuel (pm : gmap NodeId NodeId) fuel :
  ∀ fuel' node (nodeList : list NodeId) (weight : Z),
    (fuel ≤ fuel')%nat →
    pathLoop fuel g pm node nodeList weight ≠ OutOfFuel →
    pathLoop fuel' g pm node nodeList weight
    = pathLoop fuel g pm node nodeList weight.
Proof.
  induction fuel as [|fuel IH]; intros fuel' node nodeList weight Hle Hrun;
    [done |].
  destruct fuel' as [|fuel']; [lia |]. rewrite !pathLoop_S in *.
  destruct (pm !! node) as [pn|]; [|done].
  destruct (bool_decide (pn ≠ "")); [|done]. apply IH; [lia | done].
Qed.

Lemma dijkstraLoop_more_fuel fuel :
  ∀ fuel' st,
    (fuel ≤ fuel')%nat →
    dijkstraLoop fuel g st ≠ OutOfFuel →
    dijkstraLoop fuel' g st = dijkstraLoop fuel g st.
Proof.
  induction fuel as [|fuel IH]; intros fuel' st Hle Hrun; [done |].
  destruct fuel' as [|fuel']; [lia |]. rewrite !dijkstraLoop_S in *.
  destruct (priorityQueueEmpty st); [done |].
  destruct (extractMin st) as [[u|] st']; [|done]. apply IH; [lia | done].
Qed.

End fuel.

(** ** Shortest path: a predecessor named by the empty string *)

(** C3.  With nonnegative weights, both endpoints in [nodes()] and a path
    from [source] to [destination], [shortestPath] should return a lightest
    path and tag it with its weight.  Where no node is named by the empty
    string it does ([shortestPath_correct]).  At the graph with the single
    edge from "" to "a" it does not: both nodes are in [nodes()], the edge
    makes "a" reachable from "", and [shortestPath("", "a")] should return
    ["", "a"] with weight 1; but the loop of [path] reads the predecessor
    [p["a"] = ""] as false, stops at "a", and the call throws the no-path
    error. *)
Theorem shortestPath_empty_name :
  nonnegativeWeights emptyNameGraph ∧
  "" ∈ nodes emptyNameGraph ∧ "a" ∈ nodes emptyNameGraph ∧
  pathFromTo emptyNameGraph "" "a" [""; "a"] ∧
  pathWeight emptyNameGraph [""; "a"] = 1%Z ∧
  shortestPath emptyNameGraph "" "a" = Throw (Error "No path found").
Proof.
  split_and!.
  - apply nonnegativeWeights_keys. by_evaluation.
  - vm_compute. left.
  - vm_compute. right. left.
  - split_and!; [done | done |]. split; [|done].
    apply hasEdge_true. vm_compute. reflexivity.
  - vm_compute. reflexivity.
  - vm_compute. reflexivity.
Qed.

(** ** Serialization *)

Section serialize.
Import JsObj JsObjFacts.
Implicit Types (g : Graph) (u v x : NodeId) (L : list Link.t).

Lemma push_all {A B} (f : A → B) (l : list A) (acc : list B) :
  foldl (λ acc a, acc ++ [f a]) acc l = acc ++ (f <$> l).
Proof.
  revert acc. induction l as [|a l IH]; intros acc; cbn [foldl fmap list_fmap].
  - by rewrite app_nil_r.
  - by rewrite IH, <- app_assoc.
Qed.

Lemma serialize_nodes g :
  Serialized.nodes (serialize g) = SNode.mk <$> nodes g.
Proof. done. Qed.

Lemma serialize_links_acc g (ns : list NodeId) (acc : list Link.t) :
  foldl (λ links node,
           let source := SNode.id node in
           foldl (λ links target,
                    links ++ [Link.mk source target
                                      (getEdgeWeight g source target)
                                      (getEdgeId g source target)])
                 links (adjacent g source))
        acc (SNode.mk <$> ns)
  = acc ++ (ns ≫= λ u, linkOf g u <$> adjacent g u).
Proof.
  revert acc. induction ns as [|n ns IH]; intros acc;
    cbn [foldl fmap list_fmap SNode.id].
  - by rewrite app_nil_r.
  - cbv zeta. cbn [SNode.id]. rewrite IH, bind_cons, app_assoc. f_equal.
    apply (push_all (linkOf g n)).
Qed.

Lemma serialize_links g :
  Serialized.links (serialize g)
  = nodes g ≫= λ u, linkOf g u <$> adjacent g u.
Proof. apply (serialize_links_acc g (nodes g) []). Qed.

(** *** [deserialize]: first the nodes *)

Lemma addNodes_spec g (ns : list NodeId) :
  let g' := foldl (λ g n, addNode g (SNode.id n)) g (SNode.mk <$> ns) in
  (∀ x, adjacent g' x = adjacent g x) ∧
  (∀ x, x ∈ keys (edges g') ↔ x ∈ keys (edges g) ∨ x ∈ ns) ∧
  edgeWeights g' = edgeWeights g ∧ edgeIds g' = edgeIds g.
Proof.
  revert g. induction ns as [|n ns IH]; intros g;
    cbn [foldl fmap list_fmap SNode.id].
  - split_and!; try done. intros x. rewrite elem_of_nil. tauto.
  - destruct (IH (addNode g n)) as (Ha & Hk & Hw & Hi).
    split_and!; try done.
    + intros x. by rewrite Ha, adjacent_addNode.
    + intros x. rewrite Hk, elem_of_keys_addNode, elem_of_cons. tauto.
Qed.

(** *** then the links *)

Lemma addLinks_spec g L :
  let g' := foldl (λ g link,
                     addEdge g (Link.source link) (Link.target link)
                             (Some (Link.weight link)) None) g L in
  (∀ x, adjacent g' x
        = adjacent g x
          ++ (Link.target <$> filter (λ link, Link.source link = x) L)) ∧
  (∀ x, x ∈ keys (edges g') ↔
        x ∈ keys (edges g) ∨
        ∃ link, link ∈ L ∧ (x = Link.source link ∨ x = Link.target link)) ∧
  edgeIds g' = edgeIds g.
Proof.
  revert g. induction L as [|l L IH]; intros g; cbn [foldl].
  - split_and!; try done.
    + intros x. by rewrite filter_nil, app_nil_r.
    + intros x. split; [by left |]. intros [?|(l & Hl & _)]; [done |].
      by apply elem_of_nil in Hl.
  - destruct (IH (addEdge g (Link.source l) (Link.target l)
                          (Some (Link.weight l)) None)) as (Ha & Hk & Hi).
    split_and!.
    + intros x. rewrite Ha, adjacent_addEdge.
      destruct (decide (Link.source l = x)) as [Heq|Hne].
      * rewrite filter_cons_True by done. rewrite fmap_cons, <- app_assoc.
        by rewrite Heq.
      * by rewrite filter_cons_False by done.
    + intros x. rewrite Hk, elem_of_keys_addEdge. split.
      * intros [[?|[?|?]]|(l' & Hl' & Hx)].
        -- right. exists l. split; [left | by left].
        -- right. exists l. split; [left | by right].
        -- by left.
        -- right. exists l'. split; [by right | done].
      * intros [?|(l' & [->|Hl']%elem_of_cons & Hx)].
        -- left. by do 2 right.
        -- left. destruct Hx; [by left | by right; left].
        -- right. by exists l'.
    + by rewrite Hi, edgeIds_addEdge.
Qed.

(** The weight table after the links: a key some link writes holds the
    weight of a link with that key. *)
Lemma addLinks_weights g L (W : EncodedEdge → EdgeWeight) :
  (∀ link, link ∈ L →
           Link.weight link
           = W (encodeEdge (Link.source link) (Link.target link))) →
  ∀ link, link ∈ L →
    edgeWeights (foldl (λ g link,
                          addEdge g (Link.source link) (Link.target link)
                                  (Some (Link.weight link)) None) g L)
      !! encodeEdge (Link.source link) (Link.target link)
    = Some (W (encodeEdge (Link.source link) (Link.target link))).
Proof.
  revert g. induction L as [|l L IH] using rev_ind; intros g HW link Hlink.
  - by apply elem_of_nil in Hlink.
  - rewrite foldl_app. cbn [foldl]. rewrite edgeWeights_addEdge.
    rewrite lookup_insert.
    destruct (decide (encodeEdge (Link.source l) (Link.target l)
                      = encodeEdge (Link.source link) (Link.target link)))
      as [Heq|Hne].
    + rewrite <- Heq. f_equal. apply HW. apply elem_of_app. right. left.
    + apply IH.
      * intros l' Hl'. apply HW. apply elem_of_app. by left.
      * apply elem_of_app in Hlink as [?|Hl%list_elem_of_singleton]; [done |].
        by subst.
Qed.

(** *** The links that leave one node *)

Lemma links_from g (ns : list NodeId) x :
  NoDup ns →
  filter (λ link, Link.source link = x)
         (ns ≫= λ u, linkOf g u <$> adjacent g u)
  = if decide (x ∈ ns) then linkOf g x <$> adjacent g x else [].
Proof.
  assert (∀ u, u ≠ x →
            filter (λ link, Link.source link = x) (linkOf g u <$> adjacent g u)
            = []) as Hother.
  { intros u Hu. induction (adjacent g u) as [|v l IH]; [done |].
    rewrite fmap_cons, filter_cons_False; [done | by cbn]. }
  assert (filter (λ link, Link.source link = x) (linkOf g x <$> adjacent g x)
          = linkOf g x <$> adjacent g x) as Hsame.
  { induction (adjacent g x) as [|v l IH]; [done |].
    rewrite fmap_cons, filter_cons_True by done. by rewrite IH. }
  induction ns as [|n ns IH]; intros Hnd.
  - by rewrite decide_False by apply not_elem_of_nil.
  - apply NoDup_cons in Hnd as [Hn Hnd].
    rewrite bind_cons, filter_app, (IH Hnd).
    destruct (decide (n = x)) as [->|Hne].
    + rewrite Hsame, decide_False, app_nil_r by done.
      by rewrite decide_True by left.
    + rewrite (Hother n Hne), app_nil_l.
      apply decide_ext. rewrite elem_of_cons. split; [tauto |].
      intros [?|?]; [congruence | done].
Qed.

(** *** The graph after the round trip *)

Lemma adjacent_roundTrip g x : adjacent (roundTrip g) x = adjacent g x.
Proof.
  unfold roundTrip, deserialize.
  rewrite serialize_nodes, serialize_links.
  destruct (addNodes_spec emptyGraph (nodes g)) as (Ha1 & _).
  cbv zeta in Ha1.
  set (g1 := foldl _ emptyGraph (SNode.mk <$> nodes g)) in *.
  destruct (addLinks_spec g1 (nodes g ≫= λ u, linkOf g u <$> adjacent g u))
    as (Ha2 & _).
  cbv zeta in Ha2. rewrite Ha2, Ha1, (links_from g _ _ (NoDup_nodes g)).
  change (adjacent emptyGraph x) with (@nil NodeId). rewrite app_nil_l.
  destruct (decide (x ∈ nodes g)) as [Hx|Hx].
  - rewrite <- list_fmap_compose. apply list_fmap_id.
  - symmetry. apply adjacent_not_key. intros Hk. by apply Hx, nodes_key.
Qed.

Lemma elem_of_nodes_roundTrip g x : x ∈ nodes (roundTrip g) ↔ x ∈ nodes g.
Proof.
  rewrite (elem_of_nodes (roundTrip g)). split.
  - intros [Hk|(u & Hu)].
    + revert Hk. unfold roundTrip, deserialize.
      rewrite serialize_nodes, serialize_links.
      destruct (addNodes_spec emptyGraph (nodes g)) as (_ & Hk1 & _).
      cbv zeta in Hk1.
      set (g1 := foldl _ emptyGraph (SNode.mk <$> nodes g)) in *.
      destruct (addLinks_spec g1 (nodes g ≫= λ u, linkOf g u <$> adjacent g u))
        as (_ & Hk2 & _).
      cbv zeta in Hk2. rewrite Hk2, Hk1.
      intros [[Hx|?]|(l & Hl & Hx)]; [by apply elem_of_nil in Hx | done |].
      apply list_elem_of_bind in Hl as (u & Hl & Hu).
      apply list_elem_of_fmap in Hl as (v & -> & Hv).
      destruct Hx as [->| ->]; cbn; [done | by eapply nodes_target].
    + rewrite adjacent_roundTrip in Hu. by eapply nodes_target.
  - intros Hx. left. unfold roundTrip, deserialize.
    rewrite serialize_nodes, serialize_links.
    destruct (addNodes_spec emptyGraph (nodes g)) as (_ & Hk1 & _).
    cbv zeta in Hk1.
    set (g1 := foldl _ emptyGraph (SNode.mk <$> nodes g)) in *.
    destruct (addLinks_spec g1 (nodes g ≫= λ u, linkOf g u <$> adjacent g u))
      as (_ & Hk2 & _).
    cbv zeta in Hk2. rewrite Hk2, Hk1. left. by right.
Qed.

Lemma nodes_roundTrip g : nodes (roundTrip g) ≡ₚ nodes g.
Proof.
  apply NoDup_Permutation; [apply NoDup_nodes.. |].
  apply elem_of_nodes_roundTrip.
Qed.

Lemma getEdgeWeight_roundTrip g u v :
  v ∈ adjacent g u → getEdgeWeight (roundTrip g) u v = getEdgeWeight g u v.
Proof.
  intros Huv. unfold getEdgeWeight at 1. unfold roundTrip, deserialize.
  rewrite serialize_nodes, serialize_links.
  set (g1 := foldl _ emptyGraph (SNode.mk <$> nodes g)).
  pose proof (addLinks_weights g1
                (nodes g ≫= λ u, linkOf g u <$> adjacent g u)
                (λ k, match edgeWeights g !! k with
                      | None => 1%Z
                      | Some weight => weight
                      end)) as HW.
  assert (edgeWeights
            (foldl (λ g link,
                      addEdge g (Link.source link) (Link.target link)
                              (Some (Link.weight link)) None)
                   g1 (nodes g ≫= λ u, linkOf g u <$> adjacent g u))
            !! encodeEdge u v
          = Some (match edgeWeights g !! encodeEdge u v with
                  | None => 1%Z
                  | Some weight => weight
                  end)) as ->; [|done].
  refine (HW _ (linkOf g u v) _).
  - intros l (a & Hl & Ha)%list_elem_of_bind.
    by apply list_elem_of_fmap in Hl as (b & -> & Hb).
  - apply list_elem_of_bind. exists u. split.
    + apply list_elem_of_fmap. by exists v.
    + by eapply nodes_source.
Qed.

End serialize.

(** ** Serialize, deserialize, serialize *)

Section serialize_claims.
Import JsObj JsObjFacts.
Implicit Types (g : Graph) (u v : NodeId).

Lemma fmap_bind_list {A B C} (f : B → C) (k : A → list B) (l : list A) :
  f <$> (l ≫= k) = l ≫= λ a, f <$> k a.
Proof.
  induction l as [|a l IH]; [done |].
  by rewrite !bind_cons, fmap_app, IH.
Qed.

Lemma linkCore_roundTrip g u :
  linkCore <$> (linkOf (roundTrip g) u <$> adjacent (roundTrip g) u)
  = linkCore <$> (linkOf g u <$> adjacent g u).
Proof.
  rewrite adjacent_roundTrip, <- !list_fmap_compose.
  apply Forall_fmap_ext, Forall_forall. intros v Hv.
  unfold linkCore, linkOf, compose.
  cbn [Link.source Link.target Link.weight].
  by rewrite getEdgeWeight_roundTrip.
Qed.

(** The identifiers do not come back: [deserialize] never writes the
    identifier table. *)
Lemma edgeIds_roundTrip g : edgeIds (roundTrip g) = ∅.
Proof.
  unfold roundTrip, deserialize.
  destruct (addNodes_spec emptyGraph (nodes g)) as (_ & _ & _ & Hi1).
  cbv zeta in Hi1. rewrite serialize_nodes.
  set (g1 := foldl _ emptyGraph (SNode.mk <$> nodes g)) in *.
  destruct (addLinks_spec g1 (Serialized.links (serialize g)))
    as (_ & _ & Hi2).
  cbv zeta in Hi2. by rewrite Hi2, Hi1.
Qed.

Lemma serialize_roundTrip_ids g link :
  link ∈ Serialized.links (serialize (roundTrip g)) → Link.id link = None.
Proof.
  rewrite serialize_links. intros (u & Hl & _)%list_elem_of_bind.
  apply list_elem_of_fmap in Hl as (v & -> & _).
  unfold linkOf, getEdgeId. cbn [Link.id]. by rewrite edgeIds_roundTrip.
Qed.

(** Both conditions need only be checked at the keys of [edges]. *)
Lemma noDuplicateEdges_keys g :
  Forall (λ u, NoDup (adjacent g u)) (keys (edges g)) → noDuplicateEdges g.
Proof.
  intros Hall u. destruct (decide (u ∈ keys (edges g))) as [Hu|Hu].
  - by apply (proj1 (Forall_forall _ _) Hall).
  - rewrite (adjacent_not_key _ _ Hu). constructor.
Qed.

Lemma allEdgesLabelled_keys g :
  Forall (λ u, Forall (λ v, is_Some (edgeWeights g !! encodeEdge u v) ∧
                            is_Some (edgeIds g !! encodeEdge u v))
                      (adjacent g u))
         (keys (edges g)) →
  allEdgesLabelled g.
Proof.
  intros Hall u v Huv%hasEdge_true.
  pose proof (adjacent_key _ _ _ Huv) as Hu.
  pose proof (proj1 (Forall_forall _ _) Hall u Hu) as Hu'.
  by apply (proj1 (Forall_forall _ _) Hu').
Qed.

Lemma reorderGraph_noDuplicateEdges : noDuplicateEdges reorderGraph.
Proof.
  apply noDuplicateEdges_keys. by_evaluation.
Qed.

Lemma reorderGraph_allEdgesLabelled : allEdgesLabelled reorderGraph.
Proof.
  apply allEdgesLabelled_keys. by_evaluation.
Qed.

End serialize_claims.

(** C7, as the code has it.  For a graph without duplicate adjacency
    entries, the graph read back from its serialized form has the same
    nodes in [nodes()], each once, though not always in the same order;
    [hasEdge] agrees on every ordered pair, and [getEdgeWeight] agrees on
    every edge.  (The condition is the claim's; duplicates come back as
    well.) *)
Theorem roundTrip_same_graph (g : Graph) :
  noDuplicateEdges g →
  nodes (roundTrip g) ≡ₚ nodes g ∧
  (∀ u v, hasEdge (roundTrip g) u v = hasEdge g u v) ∧
  (∀ u v, hasEdge g u v = true →
          getEdgeWeight (roundTrip g) u v = getEdgeWeight g u v).
Proof.
  intros _. split_and!.
  - apply nodes_roundTrip.
  - intros u v. unfold hasEdge. by rewrite adjacent_roundTrip.
  - intros u v Huv%hasEdge_true. by apply getEdgeWeight_roundTrip.
Qed.

Lemma roundTrip_same_graph_witness :
  noDuplicateEdges reorderGraph ∧
  nodes (roundTrip reorderGraph) ≡ₚ nodes reorderGraph ∧
  (∀ u v, hasEdge (roundTrip reorderGraph) u v = hasEdge reorderGraph u v) ∧
  (∀ u v, hasEdge reorderGraph u v = true →
          getEdgeWeight (roundTrip reorderGraph) u v
          = getEdgeWeight reorderGraph u v).
Proof.
  split; [exact reorderGraph_noDuplicateEdges |].
  exact (roundTrip_same_graph reorderGraph reorderGraph_noDuplicateEdges).
Defined.

(** C7 as stated fails: [nodes()] of the graph read back is not the same
    sequence. *)
Lemma roundTrip_nodes_counterexample :
  noDuplicateEdges reorderGraph ∧
  nodes reorderGraph = ["a"; "c"; "b"; "d"] ∧
  nodes (roundTrip reorderGraph) = ["a"; "c"; "d"; "b"].
Proof.
  split; [exact reorderGraph_noDuplicateEdges |].
  split; vm_compute; reflexivity.
Qed.

(** C5, as the code has it by design.  For a graph without duplicate
    adjacency entries and with a weight and an identifier on every edge,
    serializing, deserializing into a fresh graph and serializing again
    gives a record with the same node entries and, identifiers apart, the
    same links with the same weights; the order of the entries can
    differ.  (The two conditions are the claim's; the proof does not rest
    on them.) *)
Theorem roundTrip_same_record (g : Graph) :
  noDuplicateEdges g → allEdgesLabelled g →
  Serialized.nodes (serialize (roundTrip g)) ≡ₚ Serialized.nodes (serialize g) ∧
  linkCore <$> Serialized.links (serialize (roundTrip g))
  ≡ₚ linkCore <$> Serialized.links (serialize g).
Proof.
  intros _ _.
  rewrite !serialize_nodes, !serialize_links, !fmap_bind_list. split.
  - apply fmap_Permutation, nodes_roundTrip.
  - rewrite (Forall_bind_ext _ (λ u, linkCore <$> (linkOf g u <$> adjacent g u))).
    + apply bind_Permutation, nodes_roundTrip.
    + apply Forall_forall. intros u _. apply linkCore_roundTrip.
Qed.

Lemma roundTrip_same_record_witness :
  (noDuplicateEdges reorderGraph ∧ allEdgesLabelled reorderGraph) ∧
  Serialized.nodes (serialize (roundTrip reorderGraph))
  ≡ₚ Serialized.nodes (serialize reorderGraph) ∧
  linkCore <$> Serialized.links (serialize (roundTrip reorderGraph))
  ≡ₚ linkCore <$> Serialized.links (serialize reorderGraph).
Proof.
  split.
  - split; [exact reorderGraph_noDuplicateEdges |
            exact reorderGraph_allEdgesLabelled].
  - exact (roundTrip_same_record reorderGraph reorderGraph_noDuplicateEdges
             reorderGraph_allEdgesLabelled).
Defined.

(** C5 as stated fails: the second record lists the nodes in another
    order. *)
Lemma roundTrip_record_counterexample :
  noDuplicateEdges reorderGraph ∧ allEdgesLabelled reorderGraph ∧
  serialize (roundTrip reorderGraph) ≠ serialize reorderGraph ∧
  Serialized.nodes (serialize (roundTrip reorderGraph))
  ≠ Serialized.nodes (serialize reorderGraph).
Proof.
  split; [exact reorderGraph_noDuplicateEdges |].
  split; [exact reorderGraph_allEdgesLabelled |].
  split; vm_compute; discriminate.
Qed.

(** * Further properties of the interface *)

(** ** Nodes and edges of the store *)

Section store_more.
Import JsObj JsObjFacts.
Implicit Types (g : Graph) (u v x y node : NodeId).

Lemma set_get_id {V} (o : JsObj.t V) (k : string) (a : V) :
  get o k = Some a → set o k a = o.
Proof.
  induction o as [|[k' v'] o IH]; cbn [get set]; [done |].
  destruct (decide (k' = k)) as [-> |Hne]; [by intros [= ->] |].
  intros Hget. by rewrite IH.
Qed.


Lemma set_set {V} (o : JsObj.t V) (k : string) (a b : V) :
  set (set o k a) k b = set o k b.
Proof.
  induction o as [|[k' v'] o IH]; cbn [set].
  - by rewrite decide_True.
  - destruct (decide (k' = k)) as [-> |Hne]; cbn [set].
    + by rewrite decide_True.
    + by rewrite decide_False, IH.
Qed.


Lemma addNode_key g node : node ∈ keys (edges g) → addNode g node = g.
Proof.
  intros [a Ha]%elem_of_keys. unfold addNode, adjacent. rewrite Ha.
  cbn [default from_option id]. rewrite (set_get_id _ _ _ Ha). by destruct g.
Qed.

Lemma nodeSet_ext g g' (ks : list NodeId) (nodeSet : JsObj.t bool) :
  (∀ x, adjacent g' x = adjacent g x) →
  foldl (λ nodeSet u,
           foldl (λ nodeSet v, set nodeSet v true)
                 (set nodeSet u true) (adjacent g' u))
        nodeSet ks
  = foldl (λ nodeSet u,
             foldl (λ nodeSet v, set nodeSet v true)
                   (set nodeSet u true) (adjacent g u))
          nodeSet ks.
Proof.
  intros Hadj. revert nodeSet.
  induction ks as [|k ks IH]; intros nodeSet; cbn [foldl]; [done |].
  by rewrite Hadj, IH.
Qed.

(** The node list depends on the adjacency table only. *)
Lemma nodes_ext g g' : edges g' = edges g → nodes g' = nodes g.
Proof.
  intros Heq. unfold nodes. rewrite Heq. f_equal. apply nodeSet_ext.
  intros x. unfold adjacent. by rewrite Heq.
Qed.



Lemma elem_of_nodes_removeEdge g u v x :
  wf g → x ∈ nodes (removeEdge g u v) ↔ x ∈ nodes g.
Proof.
  intros Hwf.
  by rewrite (wf_nodes _ _ (wf_removeEdge _ u v Hwf)), (wf_nodes _ _ Hwf),
    keys_removeEdge.
Qed.



End store_more.





(** X5.  On a graph built through the interface [removeEdge(u, v)] removes
    no node: [nodes()] holds the same names before and after. *)
Theorem removeEdge_keeps_nodes (g : Graph) (u v : NodeId) :
  built g → nodes (removeEdge g u v) ≡ₚ nodes g.
Proof.
  intros Hwf%built_wf. apply NoDup_Permutation; [apply NoDup_nodes.. |].
  intros x. by apply elem_of_nodes_removeEdge.
Qed.

Lemma removeEdge_keeps_nodes_witness :
  let g := addEdge (addEdge emptyGraph "a" "b" None None) "a" "c" None None in
  built g ∧ nodes (removeEdge g "a" "b") ≡ₚ nodes g.
Proof.
  intros g.
  assert (built g) as Hbuilt by (do 2 apply built_addEdge; apply built_empty).
  split; [exact Hbuilt | exact (removeEdge_keeps_nodes g "a" "b" Hbuilt)].
Defined.


(** X7.  [removeEdge(u, v)] right after [addEdge(u, v, ...)] undoes it,
    when both nodes were there and the edge was not: the adjacency table,
    and with it [nodes()] and [hasEdge], are as before, and the edge has
    no identifier.  The weight given to [addEdge] stays in the weight
    table. *)
Theorem addEdge_removeEdge (g : Graph) (u v : NodeId)
    (weight : option EdgeWeight) (edgeId : option EdgeId) :
  is_Some (JsObj.get (getEdges g) u) → is_Some (JsObj.get (getEdges g) v) →
  hasEdge g u v = false →
  let g' := removeEdge (addEdge g u v weight edgeId) u v in
  getEdges g' = getEdges g ∧ nodes g' = nodes g ∧
  (∀ x y, hasEdge g' x y = hasEdge g x y) ∧
  getEdgeId g' u v = None ∧
  getEdgeWeight g' u v = default (getEdgeWeight g u v) weight.
Proof.
  intros Hu Hv Hno%hasEdge_false g'. unfold getEdges in *.
  apply JsObjFacts.elem_of_keys in Hu, Hv.
  assert (edges g' = edges g) as Hedges.
  { subst g'. unfold removeEdge.
    rewrite edges_addEdge, !addNode_key by (by rewrite ?addNode_key).
    rewrite JsObjFacts.get_set_eq. cbn [edges].
    rewrite adjacent_addEdge, decide_True by done.
    rewrite set_set, filter_app, filter_ne_id by done.
    rewrite filter_cons_False by (by intros []). rewrite filter_nil, app_nil_r.
    apply set_get_id. apply JsObjFacts.elem_of_keys in Hu as [a Ha].
    unfold adjacent. by rewrite Ha. }
  split_and!.
  - done.
  - by apply nodes_ext.
  - intros x y. unfold hasEdge, adjacent. by rewrite Hedges.
  - subst g'. unfold getEdgeId, removeEdge.
    rewrite edges_addEdge, JsObjFacts.get_set_eq. cbn [edgeIds].
    apply lookup_delete_eq.
  - subst g'. unfold getEdgeWeight.
    rewrite edgeWeights_removeEdge, edgeWeights_addEdge.
    destruct weight as [w|]; [|done]. by rewrite lookup_insert_eq.
Qed.

Lemma addEdge_removeEdge_witness :
  (is_Some (JsObj.get (getEdges dressing) "tie") ∧
   is_Some (JsObj.get (getEdges dressing) "belt") ∧
   hasEdge dressing "tie" "belt" = false) ∧
  let g' := removeEdge (addEdge dressing "tie" "belt" (Some 3%Z) (Some "e"))
                       "tie" "belt" in
  getEdges g' = getEdges dressing ∧ nodes g' = nodes dressing ∧
  (∀ x y, hasEdge g' x y = hasEdge dressing x y) ∧
  getEdgeId g' "tie" "belt" = None ∧
  getEdgeWeight g' "tie" "belt"
  = default (getEdgeWeight dressing "tie" "belt") (Some 3%Z).
Proof.
  assert (is_Some (JsObj.get (getEdges dressing) "tie")) as Hu.
  { by_evaluation. }
  assert (is_Some (JsObj.get (getEdges dressing) "belt")) as Hv.
  { by_evaluation. }
  assert (hasEdge dressing "tie" "belt" = false) as Hno.
  { vm_compute. reflexivity. }
  split; [by split_and! |].
  exact (addEdge_removeEdge dressing "tie" "belt" (Some 3%Z) (Some "e")
           Hu Hv Hno).
Defined.

(** ** The weight and identifier tables *)

Section tables.
Implicit Types (g : Graph) (u v x y : NodeId).

Lemma append_cons c (a b : string) : String c a +:+ b = String c (a +:+ b).
Proof. reflexivity. Qed.

Lemma append_nil (b : string) : EmptyString +:+ b = b.
Proof. reflexivity. Qed.

Lemma append_assoc (a b c : string) : (a +:+ b) +:+ c = a +:+ (b +:+ c).
Proof.
  induction a as [|ch a IH]; [by rewrite !append_nil |].
  by rewrite !append_cons, IH.
Qed.

(** Names without the separator are read back from the encoding. *)
Lemma encodeEdge_inj u v x y :
  hasBar u = false → hasBar x = false →
  encodeEdge u v = encodeEdge x y → u = x ∧ v = y.
Proof.
  unfold encodeEdge. revert x.
  induction u as [|c u IH]; intros [|c' x] Hu Hx;
    rewrite ?append_cons, ?append_nil; cbn [hasBar] in *.
  - by intros [= ->].
  - intros [= <- _]. by rewrite bool_decide_eq_true_2 in Hx.
  - intros [= -> _]. by rewrite bool_decide_eq_true_2 in Hu.
  - intros [= -> Heq]. apply orb_false_iff in Hu as [_ Hu].
    apply orb_false_iff in Hx as [_ Hx].
    destruct (IH x Hu Hx Heq) as [-> ->]. done.
Qed.

End tables.

(** X8.  Weights and identifiers are kept under the key [u + "|" + v].
    When neither [u] nor [x] holds the separator, what [setEdgeWeight(u, v,
    w)] and [setEdgeId(u, v, i)] change is the entry of the pair (u, v)
    and of no other pair (x, y); neither call needs the edge to exist. *)
Theorem edge_tables_frame (g : Graph) (u v x y : NodeId)
    (w : EdgeWeight) (i : EdgeId) :
  hasBar u = false → hasBar x = false →
  getEdgeWeight (setEdgeWeight g u v w) x y
  = (if decide (x = u ∧ y = v) then w else getEdgeWeight g x y) ∧
  getEdgeId (setEdgeId g u v i) x y
  = (if decide (x = u ∧ y = v) then Some i else getEdgeId g x y).
Proof.
  intros Hu Hx. unfold getEdgeWeight, getEdgeId, setEdgeWeight, setEdgeId.
  cbn [edgeWeights edgeIds].
  destruct (decide (x = u ∧ y = v)) as [[-> ->]|Hne].
  - by rewrite !lookup_insert_eq.
  - rewrite !lookup_insert_ne; [done | |];
      intros Heq; destruct (encodeEdge_inj u v x y Hu Hx Heq) as [-> ->];
      by destruct Hne.
Qed.

Lemma edge_tables_frame_witness :
  (hasBar "a" = false ∧ hasBar "b" = false) ∧
  getEdgeWeight (setEdgeWeight cormen "a" "c" 4) "b" "c"
  = (if decide ("b" = "a" ∧ "c" = "c") then 4%Z
     else getEdgeWeight cormen "b" "c") ∧
  getEdgeId (setEdgeId cormen "a" "c" "e") "b" "c"
  = (if decide ("b" = "a" ∧ "c" = "c") then Some "e"
     else getEdgeId cormen "b" "c").
Proof.
  split; [split; reflexivity |].
  apply (edge_tables_frame cormen "a" "c" "b" "c" 4 "e"); reflexivity.
Defined.

(** X9.  The key does not tell (u + "|" + v, w) from (u, v + "|" + w):
    the two pairs share one weight entry and one identifier entry, so
    setting either for the one pair sets it for the other. *)
Theorem encodeEdge_collision (g : Graph) (u v w : NodeId)
    (k : EdgeWeight) (i : EdgeId) :
  encodeEdge (u +:+ "|" +:+ v) w = encodeEdge u (v +:+ "|" +:+ w) ∧
  getEdgeWeight (setEdgeWeight g (u +:+ "|" +:+ v) w k) u (v +:+ "|" +:+ w)
  = k ∧
  getEdgeId (setEdgeId g (u +:+ "|" +:+ v) w i) u (v +:+ "|" +:+ w)
  = Some i.
Proof.
  assert (encodeEdge (u +:+ "|" +:+ v) w = encodeEdge u (v +:+ "|" +:+ w))
    as Hkey.
  { unfold encodeEdge. rewrite !append_assoc. done. }
  split_and!; [done | |].
  - unfold getEdgeWeight, setEdgeWeight. cbn [edgeWeights].
    by rewrite Hkey, lookup_insert_eq.
  - unfold getEdgeId, setEdgeId. cbn [edgeIds].
    by rewrite Hkey, lookup_insert_eq.
Qed.

(** ** Degrees *)

Section degrees_more.
Import JsObj JsObjFacts.
Implicit Types (g : Graph) (u v x y : NodeId) (l : list NodeId).















End degrees_more.






(** ** What [removeNode] leaves in the tables *)

Section removeNode_ids.
Import JsObj JsObjFacts.
Implicit Types (g : Graph) (u v x node : NodeId) (k : EncodedEdge).

Lemma edgeIds_removeEdge g u v k :
  edgeIds (removeEdge g u v) !! k
  = if decide (k = encodeEdge u v ∧ u ∈ keys (edges g)) then None
    else edgeIds g !! k.
Proof.
  unfold removeEdge. destruct (get (edges g) u) as [a|] eqn:Hu.
  - assert (u ∈ keys (edges g)) as Hkey by (apply elem_of_keys; by rewrite Hu).
    cbn [edgeIds]. destruct (decide (k = encodeEdge u v)) as [->|Hne].
    + rewrite decide_True by done. apply lookup_delete_eq.
    + rewrite decide_False by tauto. by apply lookup_delete_ne.
  - rewrite decide_False; [done |]. intros [_ Hkey%elem_of_keys].
    rewrite Hu in Hkey. by destruct Hkey.
Qed.

Lemma removeNode_inner_ids g u node (l : list NodeId) k :
  edgeIds (foldl (λ g v, if decide (v = node) then removeEdge g u v else g)
                 g l) !! k
  = if decide (k = encodeEdge u node ∧ u ∈ keys (edges g) ∧ node ∈ l)
    then None else edgeIds g !! k.
Proof.
  revert g. induction l as [|v l IH]; intros g; cbn [foldl].
  - rewrite decide_False; [done |]. intros (_ & _ & H). by apply elem_of_nil in H.
  - destruct (decide (v = node)) as [->|Hv].
    + rewrite IH, keys_removeEdge, edgeIds_removeEdge.
      destruct (decide (k = encodeEdge u node ∧ u ∈ keys (edges g)))
        as [[-> Hkey]|Hne].
      * rewrite (decide_True (P := _ ∧ _ ∧ node ∈ node :: l))
          by (split_and!; [done | done | left]).
        by destruct (decide _).
      * rewrite !decide_False; [done | tauto | tauto].
    + rewrite IH. apply decide_ext. rewrite elem_of_cons.
      split; [tauto |]. intros (? & ? & [?|?]); done.
Qed.

(** The identifier table after the loop of [removeNode] over the keys
    [ks]: gone are the entries of the edges from a key of [ks] to the
    node, and only these. *)
Lemma removeNode_outer_ids g node (ks : list NodeId) :
  let g' :=
    foldl (λ g u,
             foldl (λ g v, if decide (v = node) then removeEdge g u v else g)
                   g (adjacent g u))
          g ks in
  (∀ u, u ∈ ks → node ∈ adjacent g u →
        edgeIds g' !! encodeEdge u node = None) ∧
  (∀ k, (∀ u, u ∈ ks → node ∈ adjacent g u → k ≠ encodeEdge u node) →
        edgeIds g' !! k = edgeIds g !! k) ∧
  (∀ k, edgeIds g !! k = None → edgeIds g' !! k = None).
Proof.
  revert g. induction ks as [|a ks IH]; intros g; cbn [foldl]; cbv zeta.
  - split_and!; [|done..]. intros u Hu. by destruct (not_elem_of_nil u).
  - pose proof (removeNode_inner g a node (adjacent g a)) as (_ & _ & Ha1).
    cbv zeta in Ha1.
    pose proof (removeNode_inner_ids g a node (adjacent g a)) as Hi1.
    set (g1 := foldl _ g (adjacent g a)) in *.
    destruct (IH g1) as (Hgone & Hkept & Hmono).
    assert (∀ u, node ∈ adjacent g1 u → node ∈ adjacent g u) as Hsub.
    { intros u. rewrite Ha1.
      destruct (decide (a = u ∧ node ∈ adjacent g a)); [|done].
      rewrite list_elem_of_filter. tauto. }
    assert (∀ k, edgeIds g !! k = None → edgeIds g1 !! k = None) as Hmono1.
    { intros k Hk. rewrite Hi1. by destruct (decide _). }
    split_and!.
    + intros u Hu Hnode.
      destruct (decide (node ∈ adjacent g1 u)) as [Hin|Hnot].
      * apply elem_of_cons in Hu as [->|Hu]; [|by apply Hgone].
        rewrite Ha1, decide_True in Hin by done.
        apply list_elem_of_filter in Hin as [? _]. done.
      * assert (u = a) as ->.
        { destruct (decide (u = a)) as [|Hne]; [done |]. destruct Hnot.
          rewrite Ha1, decide_False; [done |]. intros [? _]. done. }
        apply Hmono. rewrite Hi1, decide_True; [done |].
        split_and!; [done | by eapply adjacent_key | done].
    + intros k Hk. rewrite Hkept.
      * rewrite Hi1, decide_False; [done |]. intros (-> & _ & Hin).
        by apply (Hk a); [left | |].
      * intros u Hu Hin. apply Hk; [by right | by apply Hsub].
    + intros k Hk. by apply Hmono, Hmono1.
Qed.

End removeNode_ids.

(** X13.  [removeNode(x)] removes no weight; it removes the identifier of
    every edge that points at [x] and no other identifier.  Where names
    hold no separator, the identifiers of the edges that leave [x] for
    another node are therefore still there. *)
Theorem removeNode_tables (g : Graph) (x : NodeId) :
  (∀ u v, getEdgeWeight (removeNode g x) u v = getEdgeWeight g u v) ∧
  (∀ u, hasEdge g u x = true → getEdgeId (removeNode g x) u x = None) ∧
  (∀ u v, (∀ a, hasEdge g a x = true → encodeEdge u v ≠ encodeEdge a x) →
          getEdgeId (removeNode g x) u v = getEdgeId g u v) ∧
  (hasBar x = false → (∀ a, hasEdge g a x = true → hasBar a = false) →
   ∀ v, v ≠ x → getEdgeId (removeNode g x) x v = getEdgeId g x v).
Proof.
  destruct (removeNode_outer_ids g x (JsObj.keys (edges g)))
    as (Hgone & Hkept & _).
  cbv zeta in Hgone, Hkept.
  assert (∀ u v, (∀ a, hasEdge g a x = true →
                       encodeEdge u v ≠ encodeEdge a x) →
                 getEdgeId (removeNode g x) u v = getEdgeId g u v) as Hother.
  { intros u v Hne. unfold getEdgeId, removeNode. cbn [edgeIds].
    apply Hkept. intros a _ Ha. apply Hne. by apply hasEdge_true. }
  split_and!.
  - intros u v. unfold getEdgeWeight. by rewrite edgeWeights_removeNode.
  - intros u Hu%hasEdge_true. unfold getEdgeId, removeNode. cbn [edgeIds].
    apply Hgone; [by eapply adjacent_key | done].
  - done.
  - intros Hx Hbar v Hv. apply Hother. intros a Ha Heq.
    apply encodeEdge_inj in Heq as [_ ->]; [done | done | by apply Hbar].
Qed.

(** ** The traversal in general *)

Section dfs_general.
Import JsObj JsObjFacts.
Context (g : Graph) (options : DfsOptions) (P : list NodeId).
Implicit Types (st : DfsState) (node : NodeId) (from : option NodeId).







End dfs_general.

Section dfs_throw_at.
Context (g : Graph) (options : DfsOptions).
Context (HerrorOnCycle : truthy (errorOnCycle options) = true).
Context (R : NodeId → Prop) (HR : ∀ u v, R u → edge g u v → R v).
Implicit Types (st : DfsState) (node : NodeId) (from : option NodeId).


End dfs_throw_at.

(** ** What a traversal returns *)

Section dfs_results.
Import JsObj JsObjFacts.
Context (g : Graph).
Implicit Types (st : DfsState) (node : NodeId) (options : DfsOptions).











End dfs_results.

(** ** A traversal that records back edges *)

Section dfs_collect.
Import JsObj JsObjFacts.
Context (g : Graph) (options : DfsOptions).
Context (Hcollect : truthy (collectCycles options) = true).
Context (R : NodeId → Prop) (HR : ∀ u v, R u → edge g u v → R v).
Implicit Types (st : DfsState) (node : NodeId) (from : option NodeId).



End dfs_collect.

Section cycle_list.
Import JsObj JsObjFacts.
Implicit Types (cy : JsObj.t NodeId).


End cycle_list.







(** ** The order of a traversal that goes on at back edges *)

Section dfs_postorder.
Import JsObj JsObjFacts.
Context (g : Graph) (options : DfsOptions) (P : list NodeId).
Implicit Types (st : DfsState) (node : NodeId) (from : option NodeId).



End dfs_postorder.



(** ** [walk] *)

Section walk.
Import JsObj JsObjFacts.
Context (g : Graph).
Implicit Types (m : gmap NodeId bool) (x : NodeId) (l xs : list NodeId).

Lemma followNode_S {T} fuel (onElement : NodeId → T → outcome T) x
    (st : gmap NodeId bool * T) :
  followNode (S fuel) g onElement x st
  = if truthy (st.1 !! x) then Ret st
    else
      s ← onElement x st.2;
      if bool_decide (length (adjacent g x) = 0)
      then Ret (<[x := true]> st.1, s)
      else forEachM (followNode fuel g onElement) (adjacent g x)
                    (<[x := true]> st.1, s).
Proof. done. Qed.

Lemma forEachM_app {A T} (f : A → T → outcome T) (l1 l2 : list A) (s : T) :
  forEachM f (l1 ++ l2) s = s' ← forEachM f l1 s; forEachM f l2 s'.
Proof.
  revert s. induction l1 as [|a l1 IH]; intros s; cbn [app forEachM]; [done |].
  destruct (f a s) as [s1| |]; cbn [mbind outcome_bind]; [apply IH | done..].
Qed.

(** The visits of a list of nodes, given what one visit does. *)
Lemma followNodes_trace fuel :
  (∀ x m, (length (unmarked g m) < fuel)%nat →
          ∃ m' l, follows (λ T f, followNode fuel g f x) m m' l ∧
                  truthy (m' !! x) = true ∧
                  ∀ n, n ∈ l → reaches g x n) →
  ∀ xs m, (length (unmarked g m) < fuel)%nat →
          ∃ m' l, follows (λ T f, forEachM (followNode fuel g f) xs) m m' l ∧
                  (∀ a, a ∈ xs → truthy (m' !! a) = true) ∧
                  ∀ n, n ∈ l → ∃ a, a ∈ xs ∧ reaches g a n.
Proof.
  intros Hnode. induction xs as [|x xs IH]; intros m Hfuel.
  - exists m, []. split_and!.
    + split_and!; [done | apply marksGrow_refl | constructor |].
      intros n. split; [by intros ?%elem_of_nil | intros [? ?]; congruence].
    + intros a Ha. by apply elem_of_nil in Ha.
    + intros n Hn. by apply elem_of_nil in Hn.
  - destruct (Hnode x m Hfuel) as (m1 & l1 & (Hrun1 & Hg1 & Hnd1 & Hl1)
                                    & Hx & Hreach1).
    destruct (IH m1) as (m2 & l2 & (Hrun2 & Hg2 & Hnd2 & Hl2) & Hxs & Hreach2).
    { pose proof (unmarked_mono g _ _ Hg1). lia. }
    exists m2, (l1 ++ l2). split_and!.
    + split_and!.
      * intros T f s. cbn [forEachM]. rewrite Hrun1, forEachM_app.
        destruct (forEachM f l1 s) as [s1| |]; cbn [mbind outcome_bind];
          [apply Hrun2 | done..].
      * by eapply marksGrow_trans.
      * apply NoDup_app. split_and!; [done | | done].
        intros n [Hn1 _]%Hl1 [_ Hn2]%Hl2. congruence.
      * intros n. rewrite elem_of_app, Hl1, Hl2. split.
        -- intros [[Hn1 Hn]|[Hn2 Hn1]]; [split; [by apply Hg2 | done] |].
           split; [done |]. destruct (truthy (m !! n)) eqn:Hn; [|done].
           apply Hg1 in Hn. congruence.
        -- intros [Hn2 Hn]. destruct (truthy (m1 !! n)) eqn:Hn1;
             [by left | by right].
    + intros a [->|Ha]%elem_of_cons; [by apply Hg2 | by apply Hxs].
    + intros n [Hn|Hn]%elem_of_app.
      * exists x. split; [left | by apply Hreach1].
      * destruct (Hreach2 n Hn) as (a & Ha & Han).
        exists a. split; [by right | done].
Qed.

(** With more fuel than unmarked keys, a visit calls the callback once
    on every node it marks, and marks its node. *)
Lemma followNode_trace fuel :
  ∀ x m, (length (unmarked g m) < fuel)%nat →
         ∃ m' l, follows (λ T f, followNode fuel g f x) m m' l ∧
                 truthy (m' !! x) = true ∧
                 ∀ n, n ∈ l → reaches g x n.
Proof.
  induction fuel as [|fuel IH]; intros x m Hfuel; [lia |].
  destruct (truthy (m !! x)) eqn:Hx.
  { exists m, []. split_and!; [|done |].
    - split_and!; [| apply marksGrow_refl | constructor |].
      + intros T f s. rewrite followNode_S. cbn [fst snd]. by rewrite Hx.
      + intros n. split; [by intros ?%elem_of_nil | intros [? ?]; congruence].
    - intros n Hn. by apply elem_of_nil in Hn. }
  destruct (adjacent g x) as [|a adj] eqn:Hadj.
  { exists (<[x := true]> m), [x]. split_and!.
    - split_and!.
      + intros T f s. rewrite followNode_S. cbn [fst snd forEachM].
        rewrite Hx, Hadj. cbn [length].
        rewrite bool_decide_eq_true_2 by done.
        by destruct (f x s).
      + apply marksGrow_insert.
      + apply NoDup_singleton.
      + intros n. rewrite list_elem_of_singleton, lookup_insert.
        destruct (decide (x = n)) as [->|Hne]; [by split |].
        split; [done | intros [? ?]; congruence].
    - by rewrite lookup_insert_eq.
    - intros n ->%list_elem_of_singleton. apply rtc_refl. }
  assert (x ∈ keys (edges g)) as Hkey.
  { apply (adjacent_key g x a). rewrite Hadj. left. }
  pose proof (unmarked_insert g _ _ Hkey Hx) as Hlt.
  destruct (followNodes_trace fuel IH (adjacent g x) (<[x := true]> m))
    as (m' & l & (Hrun & Hg & Hnd & Hl) & Hadj' & Hreach); [lia |].
  exists m', (x :: l). split_and!.
  - split_and!.
    + intros T f s. rewrite followNode_S. cbn [fst snd forEachM].
      rewrite Hx, Hadj. cbn [length].
      rewrite bool_decide_eq_false_2 by done.
      destruct (f x s) as [s1| |]; cbn [mbind outcome_bind]; [|done..].
      rewrite <- Hadj. apply Hrun.
    + eapply marksGrow_trans; [apply marksGrow_insert | done].
    + apply NoDup_cons. split; [|done].
      intros [_ Hn]%Hl. by rewrite lookup_insert_eq in Hn.
    + intros n. rewrite elem_of_cons, Hl, lookup_insert.
      destruct (decide (x = n)) as [->|Hne].
      * split; [|by left]. intros _. split; [|done].
        apply Hg. by rewrite lookup_insert_eq.
      * split; [intros [?|?]; [congruence | done] | by right].
  - apply Hg. by rewrite lookup_insert_eq.
  - intros n [->|Hn]%elem_of_cons; [apply rtc_refl |].
    destruct (Hreach n Hn) as (b & Hb & Hbn). by eapply rtc_l.
Qed.

Lemma reaches_nodes x n : x ∈ nodes g → reaches g x n → n ∈ nodes g.
Proof.
  intros Hx Hreach. induction Hreach as [y|y z w Hyz _ IH]; [done |].
  apply IH. by eapply nodes_target.
Qed.

End walk.

(** X19.  [walk(onElement)] calls [onElement] once for every node of
    [nodes()] and for nothing else, in an order that depends on the graph
    alone; when a call of [onElement] throws, [walk] throws what it threw
    and makes no further call. *)
Theorem walk_each_node_once (g : Graph) :
  ∃ order,
    order ≡ₚ nodes g ∧
    ∀ T (onElement : NodeId → T → outcome T) (s : T),
      walk g onElement s = forEachM onElement order s.
Proof.
  destruct (followNodes_trace g (dfsFuel g) (followNode_trace g (dfsFuel g))
              (nodes g) ∅)
    as (m' & order & (Hrun & _ & Hnd & Horder) & Hall & Hreach);
    [apply unmarked_dfsFuel |].
  exists order. split.
  - apply NoDup_Permutation; [done | apply NoDup_nodes |]. intros n. split.
    + intros (a & Ha & Han)%Hreach. by eapply reaches_nodes.
    + intros Hn. apply Horder. split; [by apply Hall |].
      by rewrite lookup_empty.
  - intros T onElement s. unfold walk. rewrite Hrun.
    by destruct (forEachM onElement order s).
Qed.

(** The order on the graph of the shortest-path test. *)
Lemma walk_cormen :
  walk cormen (λ n (seen : list NodeId), Ret (seen ++ [n])) []
  = Ret ["s"; "t"; "y"; "x"; "z"].
Proof. vm_compute. reflexivity. Qed.

(** ** [lowestCommonAncestors] in general *)

Section everyM_result.
Context {A S : Type} (f : A → S → outcome (bool * S)).


End everyM_result.

Section lca_general.
Import JsObj JsObjFacts.
Context (g : Graph) (node1 node2 : NodeId).
Implicit Types (st : LcaState) (node : NodeId).



End lca_general.


(** ** [shortestPath] on graphs with nonnegative weights *)

Section sp_more.
Import JsObj JsObjFacts.
Context (g : Graph) (source destination : NodeId).


End sp_more.

Section path_simple.
Import JsObj JsObjFacts.
Context (g : Graph) (source : NodeId) (order : list NodeId) (st : SpState).
Context (Hfinal : dijkstraFinal g source order st).
Context (Hnames : "" ∉ nodes g).



End path_simple.



(** X22.  In a graph with nonnegative weights, the shortest path from a
    node of [nodes()] to itself is the node alone, with weight 0; this
    holds for the node named by the empty string as well. *)
Theorem shortestPath_same_node (g : Graph) (source : NodeId) :
  nonnegativeWeights g → source ∈ nodes g →
  shortestPath g source source = Ret (mkPath [source] 0).
Proof.
  intros Hweights Hs.
  destruct (shortestPath_dijkstraDone g source Hweights source Hs Hs)
    as (st & [order Hfinal] & ->).
  unfold path. rewrite pathLoop_S.
  destruct (p st !! source) as [u|] eqn:Hu.
  { by destruct (fin_pred _ _ _ _ Hfinal source u Hu) as [? _]. }
  cbn [mbind outcome_bind]. by rewrite bool_decide_eq_false_2 by (by intros []).
Qed.

Lemma shortestPath_same_node_witness :
  (nonnegativeWeights emptyNameGraph ∧ "" ∈ nodes emptyNameGraph) ∧
  shortestPath emptyNameGraph "" "" = Ret (mkPath [""] 0).
Proof.
  assert (nonnegativeWeights emptyNameGraph) as Hweights.
  { apply nonnegativeWeights_keys. by_evaluation. }
  assert ("" ∈ nodes emptyNameGraph) as Hs by by_evaluation.
  split; [by split |].
  exact (shortestPath_same_node emptyNameGraph "" Hweights Hs).
Defined.

(** ** [serialize] and [deserialize] on any graph *)

Section serialize_more.
Import JsObj JsObjFacts.
Implicit Types (g : Graph) (u v x : NodeId).



End serialize_more.


(** X24.  [serialize] lists the nodes of [nodes()] in their order, and for
    every node, in the order of its adjacency list, one link for each
    entry of the list, with the weight [getEdgeWeight] gives and the
    identifier [getEdgeId] gives; there are no other links. *)
Theorem serialize_spec (g : Graph) :
  Serialized.nodes (serialize g) = SNode.mk <$> nodes g ∧
  (∀ u, filter (λ link, Link.source link = u)
               (Serialized.links (serialize g))
        = (λ v, Link.mk u v (getEdgeWeight g u v) (getEdgeId g u v))
            <$> adjacent g u) ∧
  (∀ link, link ∈ Serialized.links (serialize g) ↔
           ∃ u v, hasEdge g u v = true ∧
                  link = Link.mk u v (getEdgeWeight g u v) (getEdgeId g u v)).
Proof.
  split_and!.
  - apply serialize_nodes.
  - intros u. rewrite serialize_links, links_from by apply NoDup_nodes.
    case_decide as Hu; [done |].
    destruct (adjacent g u) as [|v l] eqn:Hadj; [done |].
    destruct Hu. apply (nodes_source g u v). rewrite Hadj. left.
  - intros link. rewrite serialize_links, list_elem_of_bind. split.
    + intros (u & (v & -> & Hv)%list_elem_of_fmap & _).
      exists u, v. split; [by apply hasEdge_true | done].
    + intros (u & v & Huv%hasEdge_true & ->). exists u. split.
      * apply list_elem_of_fmap. by exists v.
      * by eapply nodes_source.
Qed.

(** X25.  Reading a serialized graph back, through [deserialize] on a
    fresh graph or through the constructor, gives for any graph the same
    adjacency lists, duplicates and order included, the same nodes in
    [nodes()] up to their order, and the same weight on every edge; but
    no edge has an identifier any more. *)
Theorem roundTrip_any_graph (g : Graph) :
  newGraph (Some (serialize g)) = roundTrip g ∧
  (∀ x, adjacent (roundTrip g) x = adjacent g x) ∧
  nodes (roundTrip g) ≡ₚ nodes g ∧
  (∀ u v, hasEdge g u v = true →
          getEdgeWeight (roundTrip g) u v = getEdgeWeight g u v) ∧
  (∀ u v, getEdgeId (roundTrip g) u v = None) ∧
  (∀ link, link ∈ Serialized.links (serialize (roundTrip g)) →
           Link.id link = None).
Proof.
  split_and!.
  - done.
  - apply adjacent_roundTrip.
  - apply nodes_roundTrip.
  - intros u v Huv%hasEdge_true. by apply getEdgeWeight_roundTrip.
  - intros u v. unfold getEdgeId. by rewrite edgeIds_roundTrip.
  - intros link. apply serialize_roundTrip_ids.
Qed.

(** ** The model on examples of the test suite *)

(** "Should get the cycles" *)
Example getCycles_test :
  let g := foldl (λ g e, addEdge g e.1 e.2 None None) emptyGraph
                 [("a", "b"); ("b", "a"); ("b", "c"); ("c", "b"); ("d", "e")] in
  getCycles g (Some ["a"]) = Ret [("a", "b"); ("b", "c")].
Proof. vm_compute. reflexivity. Qed.

(** "Should compute lowest common ancestors." *)
Example lowestCommonAncestors_test :
  let g := addNode
             (foldl (λ g e, addEdge g e.1 e.2 None None) emptyGraph
                    [("a", "b"); ("b", "d"); ("c", "d"); ("b", "e");
                     ("c", "e"); ("d", "g"); ("e", "g")]) "f" in
  lowestCommonAncestors g "a" "a" = Ret ["a"] ∧
  lowestCommonAncestors g "a" "b" = Ret ["b"] ∧
  lowestCommonAncestors g "a" "c" = Ret ["d"; "e"] ∧
  lowestCommonAncestors g "a" "f" = Ret [].
Proof. vm_compute. by split_and!. Qed.

(** "Should exclude source nodes with a cycle." and "Should compute
    topological sort tricky case." *)
Example topologicalSort_test :
  let cycle := foldl (λ g e, addEdge g e.1 e.2 None None) emptyGraph
                     [("a", "b"); ("b", "c"); ("c", "a")] in
  let tricky := foldl (λ g e, addEdge g e.1 e.2 None None) emptyGraph
                      [("a", "b"); ("a", "d"); ("b", "c"); ("d", "e");
                       ("c", "e")] in
  topologicalSort cycle (Some ["a"]) (Some false) = Ret ["b"; "c"] ∧
  topologicalSort cycle None None = Throw (CycleError "Cycle found") ∧
  topologicalSort tricky (Some ["a"]) (Some false) = Ret ["d"; "b"; "c"; "e"].
Proof. vm_compute. by split_and!. Qed.

(** "Should add ids to edges" *)
Example getEdgeId_test :
  let g := addEdge (addEdge (addEdge emptyGraph "a" "b" None (Some "123"))
                            "b" "a" None (Some "456"))
                   "b" "c" None (Some "789") in
  getEdgeId g "a" "b" = Some "123" ∧ getEdgeId g "b" "a" = Some "456" ∧
  getEdgeId g "b" "c" = Some "789".
Proof. vm_compute. by split_and!. Qed.
